(** * The interactive diagram canvas of [src/diagram.ts]

    A shallow embedding of the [Rectangle] and [Chart] classes: hit testing,
    entity and connection bookkeeping, connection anchors, and the pointer /
    wheel handlers that drive dragging, resizing, panning and pinch zooming.

    Numbers.  A JavaScript [number] is modelled by an exact rational [Q]:
    rounding, NaN and the infinities are outside the model.  Division by
    zero yields [0] in [Q] where JavaScript yields NaN or an infinity, so
    every theorem below that divides keeps its divisor non-zero by
    hypothesis, and every refutation is chosen so that it also holds when
    the quotient is NaN.  Because the source computes in binary64, the
    theorems on geometry and on the transform state only what does not
    depend on rounding: which branch runs, which fields change, an equation
    between a field and the very expression the source assigns to it, a
    comparison the source makes, or a bound with slack.  Identities that
    hold in exact arithmetic only (an edge or a pivot recomputed through a
    sum or a quotient) are not stated; module [Double] carries the same
    expressions over binary64 and shows, on concrete inputs, where they
    fail.

    Objects.  [Rectangle] instances are mutable objects shared between the
    [rectangles] map and the gesture records, so the chart carries an object
    store ([heap]) and both refer to a rectangle by its address.

    Host functions.  [Math.random] and [crypto.randomUUID] are inputs of the
    operations that call them; [Math.hypot] is a parameter of the handlers
    that call it.  Drawing on the canvas and pointer capture change nothing
    in the chart and are left out; the [cursor] style is kept. *)

From Stdlib Require Import QArith Qabs Qround Lqa ZArith String List.
From Stdlib Require Floats.PrimFloat.
From stdpp Require Import base list strings.

Local Open Scope Q_scope.

(** ** Comparisons on numbers *)

Definition Qltb (a b : Q) : bool := negb (Qle_bool b a).

(** ** JavaScript [Map]: insertion-ordered, one binding per key *)

Module JsMap.
Section Ops.
Context {K : Type} `{EqDecision K} {V : Type}.

Fixpoint get (m : list (K * V)) (k : K) : option V :=
  match m with
  | [] => None
  | (k', v) :: m' => if decide (k = k') then Some v else get m' k
  end.

Definition has (m : list (K * V)) (k : K) : bool :=
  match get m k with Some _ => true | None => false end.

(** [set] overwrites the value of an existing key where it stands and
    appends a new key at the end. *)
Fixpoint set (m : list (K * V)) (k : K) (v : V) : list (K * V) :=
  match m with
  | [] => [(k, v)]
  | (k', v') :: m' =>
      if decide (k = k') then (k, v) :: m' else (k', v') :: set m' k v
  end.

Fixpoint remove (m : list (K * V)) (k : K) : list (K * V) :=
  match m with
  | [] => []
  | (k', v') :: m' =>
      if decide (k = k') then m' else (k', v') :: remove m' k
  end.

(** [delete] returns whether the key was present, and the remaining map. *)
Definition delete (m : list (K * V)) (k : K) : bool * list (K * V) :=
  (has m k, remove m k).

Definition size (m : list (K * V)) : nat := length m.

Definition values (m : list (K * V)) : list V := map snd m.

End Ops.
End JsMap.

(** ** Data model *)

Record Point := mkPoint { p_x : Q; p_y : Q }.

Definition point_to_tup (p : Point) : Q * Q := (p_x p, p_y p).

Record RectEntry := mkEntry {
  e_id : string;
  e_left : string;
  e_right : string }.

Record RectData := mkData {
  d_id : string;
  d_title : string;
  d_entries : list RectEntry }.

Record Transform := mkTransform {
  scale : Q;
  translateX : Q;
  translateY : Q }.

Inductive HitPart :=
| Inside | Left | Right | Top | Bottom
| TopLeft | TopRight | BottomLeft | BottomRight.

(** The string each [HitPart] stands for in the source. *)
Definition hitPartName (p : HitPart) : string :=
  match p with
  | Inside => "inside"
  | Left => "left"
  | Right => "right"
  | Top => "top"
  | Bottom => "bottom"
  | TopLeft => "top-left"
  | TopRight => "top-right"
  | BottomLeft => "bottom-left"
  | BottomRight => "bottom-right"
  end.

(** [part.includes(s)]: [s] occurs in the name of [part]. *)
Definition includes (part : HitPart) (s : string) : bool :=
  match String.index 0 s (hitPartName part) with
  | Some _ => true
  | None => false
  end.

Record Endpoint := mkEndpoint {
  rectId : string;
  entryId : option string }.

Record Connection := mkConnection {
  c_id : string;
  sideA : Endpoint;
  sideB : Endpoint }.

Record Rectangle := mkRect {
  r_data : RectData;
  r_x : Q;
  r_y : Q;
  r_width : Q;
  r_height : Q }.

Module Rectangle.

Definition edgeThreshold : Q := 6.

(** The getter [id]. *)
Definition id (r : Rectangle) : string := d_id (r_data r).

(** The bands of [getHitPart]: the rectangle's span on each axis widened by
    the threshold, and closeness to each edge within the widened span of the
    other axis. *)
Definition inX (r : Rectangle) (px : Q) : bool :=
  Qltb (r_x r - edgeThreshold) px
  && Qltb px (r_x r + r_width r + edgeThreshold).

Definition inY (r : Rectangle) (py : Q) : bool :=
  Qltb (r_y r - edgeThreshold) py
  && Qltb py (r_y r + r_height r + edgeThreshold).

Definition nearLeft (r : Rectangle) (px py : Q) : bool :=
  Qltb (Qabs (px - r_x r)) edgeThreshold && inY r py.

Definition nearRight (r : Rectangle) (px py : Q) : bool :=
  Qltb (Qabs (px - (r_x r + r_width r))) edgeThreshold && inY r py.

Definition nearTop (r : Rectangle) (px py : Q) : bool :=
  Qltb (Qabs (py - r_y r)) edgeThreshold && inX r px.

Definition nearBottom (r : Rectangle) (px py : Q) : bool :=
  Qltb (Qabs (py - (r_y r + r_height r))) edgeThreshold && inX r px.

(** Where the point [(px, py)] lies relative to the rectangle; [None] is
    the source's [null]. *)
Definition getHitPart (r : Rectangle) (px py : Q) : option HitPart :=
  if nearLeft r px py && nearTop r px py then Some TopLeft
  else if nearRight r px py && nearTop r px py then Some TopRight
  else if nearLeft r px py && nearBottom r px py then Some BottomLeft
  else if nearRight r px py && nearBottom r px py then Some BottomRight
  else if nearLeft r px py then Some Left
  else if nearRight r px py then Some Right
  else if nearTop r px py then Some Top
  else if nearBottom r px py then Some Bottom
  else if inX r px && inY r py then Some Inside
  else None.

End Rectangle.

(** The fields of [RECT_STYLE] that enter a computation. *)
Module RECT_STYLE.
Definition padding : Q := 8.
Definition lineHeight : Q := 18.
Definition titleFontSize : Q := 16.
Definition entryFontSize : Q := 14.
Definition minWidth : Q := 50.
End RECT_STYLE.

Definition CURSOR_MAP (p : HitPart) : string :=
  match p with
  | Inside => "move"
  | Left => "ew-resize"
  | Right => "ew-resize"
  | Top => "ns-resize"
  | Bottom => "ns-resize"
  | TopLeft => "nwse-resize"
  | TopRight => "nesw-resize"
  | BottomLeft => "nesw-resize"
  | BottomRight => "nwse-resize"
  end.

(** ** The chart *)

(** Gesture records.  A [rect] field holds the address of the rectangle
    object in the chart's store. *)
Record DragState := mkDrag {
  dr_rect : nat;
  dr_start : Point;
  dr_initPos : Point }.

Record Geometry := mkGeometry { g_x : Q; g_y : Q; g_w : Q; g_h : Q }.

Record ResizeState := mkResize {
  rs_rect : nat;
  rs_part : HitPart;
  rs_start : Point;
  rs_init : Geometry }.

Record PanState := mkPan {
  pn_start : Point;
  pn_initTrans : Transform }.

Record PinchState := mkPinch {
  startDist : Q;
  startScale : Q;
  mid : Point }.

Record Chart := mkChart {
  canvas_width : Q;
  canvas_height : Q;
  cursor : string;
  heap : list Rectangle;
  rectangles : list (string * nat);
  transform : Transform;
  pointers : list (Z * Point);
  connections : list (string * Connection);
  draggingRect : option DragState;
  resizingRect : option ResizeState;
  panning : option PanState;
  pinch : option PinchState }.

Definition set_cursor (c : Chart) (s : string) : Chart :=
  mkChart (canvas_width c) (canvas_height c) s (heap c) (rectangles c)
    (transform c) (pointers c) (connections c)
    (draggingRect c) (resizingRect c) (panning c) (pinch c).

Definition set_heap (c : Chart) (h : list Rectangle) : Chart :=
  mkChart (canvas_width c) (canvas_height c) (cursor c) h (rectangles c)
    (transform c) (pointers c) (connections c)
    (draggingRect c) (resizingRect c) (panning c) (pinch c).

Definition set_rectangles (c : Chart) (m : list (string * nat)) : Chart :=
  mkChart (canvas_width c) (canvas_height c) (cursor c) (heap c) m
    (transform c) (pointers c) (connections c)
    (draggingRect c) (resizingRect c) (panning c) (pinch c).

Definition set_transform (c : Chart) (t : Transform) : Chart :=
  mkChart (canvas_width c) (canvas_height c) (cursor c) (heap c) (rectangles c)
    t (pointers c) (connections c)
    (draggingRect c) (resizingRect c) (panning c) (pinch c).

Definition set_pointers (c : Chart) (m : list (Z * Point)) : Chart :=
  mkChart (canvas_width c) (canvas_height c) (cursor c) (heap c) (rectangles c)
    (transform c) m (connections c)
    (draggingRect c) (resizingRect c) (panning c) (pinch c).

Definition set_connections (c : Chart) (m : list (string * Connection)) : Chart :=
  mkChart (canvas_width c) (canvas_height c) (cursor c) (heap c) (rectangles c)
    (transform c) (pointers c) m
    (draggingRect c) (resizingRect c) (panning c) (pinch c).

Definition set_draggingRect (c : Chart) (g : option DragState) : Chart :=
  mkChart (canvas_width c) (canvas_height c) (cursor c) (heap c) (rectangles c)
    (transform c) (pointers c) (connections c)
    g (resizingRect c) (panning c) (pinch c).

Definition set_resizingRect (c : Chart) (g : option ResizeState) : Chart :=
  mkChart (canvas_width c) (canvas_height c) (cursor c) (heap c) (rectangles c)
    (transform c) (pointers c) (connections c)
    (draggingRect c) g (panning c) (pinch c).

Definition set_panning (c : Chart) (g : option PanState) : Chart :=
  mkChart (canvas_width c) (canvas_height c) (cursor c) (heap c) (rectangles c)
    (transform c) (pointers c) (connections c)
    (draggingRect c) (resizingRect c) g (pinch c).

Definition set_pinch (c : Chart) (g : option PinchState) : Chart :=
  mkChart (canvas_width c) (canvas_height c) (cursor c) (heap c) (rectangles c)
    (transform c) (pointers c) (connections c)
    (draggingRect c) (resizingRect c) (panning c) g.

(** What a method without a [return] statement, or one returning a string,
    hands back to its caller. *)
Inductive Returned :=
| Undefined
| Str (s : string).

(** *** Entities *)

(** [addRectangle]: [u] and [v] are the two [Math.random()] draws.  The new
    object gets a fresh address; the method has no [return]. *)
Definition addRectangle (u v : Q) (data : RectData) (c : Chart)
  : Returned * Chart :=
  let w := 200 in
  let h := 120 in
  let x := u * (canvas_width c / scale (transform c) - w) in
  let y := v * (canvas_height c / scale (transform c) - h) in
  let rect := mkRect data x y w h in
  let a := length (heap c) in
  let c1 := set_heap c (heap c ++ [rect]) in
  (Undefined,
   set_rectangles c1 (JsMap.set (rectangles c1) (Rectangle.id rect) a)).

Definition removeRectangle (id : string) (c : Chart) : bool * Chart :=
  let '(found, m) := JsMap.delete (rectangles c) id in
  (found, set_rectangles c m).

Definition with_data (data : RectData) (r : Rectangle) : Rectangle :=
  mkRect data (r_x r) (r_y r) (r_width r) (r_height r).

Definition updateRectangle (id : string) (data : RectData) (c : Chart)
  : bool * Chart :=
  match JsMap.get (rectangles c) id with
  | None => (false, c)
  | Some a => (true, set_heap c (alter (with_data data) a (heap c)))
  end.

(** The rectangle object bound to a key, read through the store. *)
Definition lookupRectangle (c : Chart) (id : string) : option Rectangle :=
  a ← JsMap.get (rectangles c) id; heap c !! a.

(** *** Connections *)

(** [addConnection]: [uuid] is the [crypto.randomUUID()] draw. *)
Definition addConnection (uuid : string) (a b : Endpoint) (c : Chart)
  : string * Chart :=
  (uuid,
   set_connections c (JsMap.set (connections c) uuid (mkConnection uuid a b))).

Definition removeConnection (id : string) (c : Chart) : bool * Chart :=
  let '(found, m) := JsMap.delete (connections c) id in
  (found, set_connections c m).

Definition getConnections (c : Chart) : list Connection :=
  JsMap.values (connections c).

Definition getConnectionsForRect (c : Chart) (id : string) : list Connection :=
  filter (fun k => rectId (sideA k) = id \/ rectId (sideB k) = id)
         (getConnections c).

(** *** Geometry helpers *)

(** [findIndex] on the entry list, [None] for the source's [-1]. *)
Fixpoint findIndex (entries : list RectEntry) (eid : string) : option nat :=
  match entries with
  | [] => None
  | e :: rest =>
      if decide (e_id e = eid) then Some 0%nat
      else S <$> findIndex rest eid
  end.

(** An optional string is truthy when present and not empty. *)
Definition truthy (s : option string) : option string :=
  match s with
  | Some EmptyString => None
  | other => other
  end.

Definition getEndpointPosition (c : Chart) (ep : Endpoint) (isFrom : bool)
  : Point :=
  match lookupRectangle c (rectId ep) with
  | None => mkPoint 0 0
  | Some r =>
      let scale := scale (transform c) in
      let pad := RECT_STYLE.padding / scale in
      let titleFontSize := RECT_STYLE.titleFontSize / scale in
      let titleLineHeight := titleFontSize * 1.2 in
      let entryLineHeight := RECT_STYLE.lineHeight / scale in
      let titleY := r_y r + pad in
      let centre := mkPoint (r_x r + r_width r / 2) (r_y r + r_height r / 2) in
      match truthy (entryId ep) with
      | Some eid =>
          match findIndex (d_entries (r_data r)) eid with
          | Some idx =>
              let y := titleY + titleLineHeight
                       + inject_Z (Z.of_nat idx) * entryLineHeight
                       + entryLineHeight / 2 in
              let x := if isFrom then r_x r + r_width r - pad
                       else r_x r + pad in
              mkPoint x y
          | None => centre
          end
      | None => centre
      end
  end.

Definition calculateMinimumHeight (r : Rectangle) (scale : Q) : Q :=
  let titleFontSize := RECT_STYLE.titleFontSize / scale in
  let titleLineHeight := titleFontSize * 1.2 in
  let entryLineHeight := RECT_STYLE.lineHeight / scale in
  let pad := RECT_STYLE.padding / scale in
  let contentHeight :=
    titleLineHeight
    + inject_Z (Z.of_nat (length (d_entries (r_data r)))) * entryLineHeight in
  contentHeight + pad * 2.

(** Where [drawRectangle] puts the top of entry row [i] (text baseline
    "top"): below the padded title line, one line height per row. *)
Definition entryRowTop (r : Rectangle) (scale : Q) (i : nat) : Q :=
  let pad := RECT_STYLE.padding / scale in
  let titleFontSize := RECT_STYLE.titleFontSize / scale in
  let titleLineHeight := titleFontSize * 1.2 in
  let entryLineHeight := RECT_STYLE.lineHeight / scale in
  let titleY := r_y r + pad in
  let entryStartY := titleY + titleLineHeight in
  entryStartY + inject_Z (Z.of_nat i) * entryLineHeight.

(** The result of [hitTest]: the rectangle object (its address, and its
    fields as they are at the time of the test) and the part touched. *)
Record Hit := mkHit {
  h_rect : nat;
  h_obj : Rectangle;
  h_part : HitPart }.

(** The first rectangle, in the given order, that the point touches. *)
Fixpoint hitTest_from (h : list Rectangle) (addrs : list nat) (x y : Q)
  : option Hit :=
  match addrs with
  | [] => None
  | a :: rest =>
      match h !! a with
      | Some rect =>
          match Rectangle.getHitPart rect x y with
          | Some part => Some (mkHit a rect part)
          | None => hitTest_from h rest x y
          end
      | None => hitTest_from h rest x y
      end
  end.

(** The map's values are walked in reverse insertion order. *)
Definition hitTest (c : Chart) (x y : Q) : option Hit :=
  hitTest_from (heap c) (rev (JsMap.values (rectangles c))) x y.

Definition screenToWorld (c : Chart) (x y : Q) : Point :=
  mkPoint ((x - translateX (transform c)) / scale (transform c))
          ((y - translateY (transform c)) / scale (transform c)).

(** One stroked curve of [drawConnections]: start, two control points, end. *)
Record Bezier := mkBezier {
  b_from : Point;
  b_cp1 : Point;
  b_cp2 : Point;
  b_to : Point }.

Definition routeConnection (c : Chart) (conn : Connection) : Bezier :=
  let a1 := getEndpointPosition c (sideA conn) true in
  let b1 := getEndpointPosition c (sideB conn) false in
  let dx1 := Qabs (p_x a1 - p_x b1) in
  let a2 := getEndpointPosition c (sideA conn) false in
  let b2 := getEndpointPosition c (sideB conn) true in
  let dx2 := Qabs (p_x a2 - p_x b2) in
  let fromPos := if Qle_bool dx1 dx2 then a1 else a2 in
  let toPos := if Qle_bool dx1 dx2 then b1 else b2 in
  let cpX := p_x fromPos + (p_x toPos - p_x fromPos) / 2 in
  let cp1Y := p_y fromPos in
  let cp2Y := p_y toPos in
  mkBezier fromPos (mkPoint cpX cp1Y) (mkPoint cpX cp2Y) toPos.

Definition drawConnections (c : Chart) : list Bezier :=
  map (routeConnection c) (getConnections c).

(** ** Input events and their handlers *)

Record PointerEvent := mkPointerEvent {
  pointerId : Z;
  clientX : Q;
  clientY : Q }.

Record WheelEvent := mkWheelEvent {
  deltaY : Q;
  w_clientX : Q;
  w_clientY : Q }.

(** Hover feedback: the cursor follows the hit part unless a gesture is
    active. *)
Definition updateCursor (c : Chart) (screenPoint : Point) : Chart :=
  match pinch c, panning c with
  | None, None =>
      match resizingRect c, draggingRect c with
      | None, None =>
          let worldPoint := screenToWorld c (p_x screenPoint) (p_y screenPoint) in
          match hitTest c (p_x worldPoint) (p_y worldPoint) with
          | Some hit => set_cursor c (CURSOR_MAP (h_part hit))
          | None => set_cursor c "default"
          end
      | _, _ => c
      end
  | _, _ => c
  end.

(** The resize branch of [handlePointerMove], on the rectangle object
    [rect]: proposed geometry from the gesture's initial one, then the
    minimum-size floor. *)
Definition resizeRectangle (rect : Rectangle) (g : ResizeState) (scale : Q)
  (sp : Point) : Rectangle :=
  let part := rs_part g in
  let start := rs_start g in
  let init := rs_init g in
  let dx := (p_x sp - p_x start) / scale in
  let dy := (p_y sp - p_y start) / scale in
  let newX := r_x rect in
  let newY := r_y rect in
  let newW := r_width rect in
  let newH := r_height rect in
  let '(newX, newW) :=
    if includes part "left" then (g_x init + dx, g_w init - dx)
    else (newX, newW) in
  let newW := if includes part "right" then g_w init + dx else newW in
  let '(newY, newH) :=
    if includes part "top" then (g_y init + dy, g_h init - dy)
    else (newY, newH) in
  let newH := if includes part "bottom" then g_h init + dy else newH in
  let minHeight := calculateMinimumHeight rect scale in
  let minWidth := RECT_STYLE.minWidth / scale in
  let '(newX, newW) :=
    if Qltb newW minWidth then
      (if includes part "left" then r_x rect + r_width rect - minWidth
       else newX,
       minWidth)
    else (newX, newW) in
  let '(newY, newH) :=
    if Qltb newH minHeight then
      (if includes part "top" then r_y rect + r_height rect - minHeight
       else newY,
       minHeight)
    else (newY, newH) in
  mkRect (r_data rect) newX newY newW newH.

Definition handleWheel (c : Chart) (e : WheelEvent) : Chart :=
  let delta := - deltaY e * 0.001 in
  let t := transform c in
  let newScale := scale t * (1 + delta) in
  let wx := (w_clientX e - translateX t) / scale t in
  let wy := (w_clientY e - translateY t) / scale t in
  set_transform c
    (mkTransform newScale (w_clientX e - wx * newScale)
                 (w_clientY e - wy * newScale)).

Section Handlers.

(** [Math.hypot] on two arguments. *)
Variable hypot : Q -> Q -> Q.

Definition handlePointerDown (c : Chart) (e : PointerEvent) : Chart :=
  let sp := mkPoint (clientX e) (clientY e) in
  let c := set_pointers c (JsMap.set (pointers c) (pointerId e) sp) in
  match JsMap.values (pointers c) with
  | [p0; p1] =>
      (* [pointers.size === 2]: pinch start *)
      let dx := p_x p1 - p_x p0 in
      let dy := p_y p1 - p_y p0 in
      let dist := hypot dx dy in
      set_pinch c
        (Some (mkPinch dist (scale (transform c))
                 (mkPoint ((p_x p0 + p_x p1) / 2) ((p_y p0 + p_y p1) / 2))))
  | _ =>
      (* single-pointer: pan or rect *)
      let '(wx, wy) := point_to_tup (screenToWorld c (p_x sp) (p_y sp)) in
      match hitTest c wx wy with
      | Some (mkHit a rect part) =>
          match part with
          | Inside =>
              set_cursor
                (set_draggingRect c
                   (Some (mkDrag a sp (mkPoint (r_x rect) (r_y rect)))))
                "move"
          | _ =>
              set_cursor
                (set_resizingRect c
                   (Some (mkResize a part sp
                            (mkGeometry (r_x rect) (r_y rect)
                                        (r_width rect) (r_height rect)))))
                (CURSOR_MAP part)
          end
      | None =>
          set_cursor (set_panning c (Some (mkPan sp (transform c)))) "grabbing"
      end
  end.

Definition pinchMove (c : Chart) (p : PinchState) (p0 p1 : Point) : Chart :=
  let dx := p_x p1 - p_x p0 in
  let dy := p_y p1 - p_y p0 in
  let dist := hypot dx dy in
  let scale := (dist / startDist p) * startScale p in
  let w0 := screenToWorld c (p_x (mid p)) (p_y (mid p)) in
  set_transform c
    (mkTransform scale (p_x (mid p) - p_x w0 * scale)
                 (p_y (mid p) - p_y w0 * scale)).

(** The branches of [handlePointerMove] below the pinch test. *)
Definition singleMove (c : Chart) (sp : Point) : Chart :=
  match resizingRect c with
  | Some g =>
      set_heap c
        (alter (fun rect => resizeRectangle rect g (scale (transform c)) sp)
               (rs_rect g) (heap c))
  | None =>
      match draggingRect c with
      | Some d =>
          let dx := (p_x sp - p_x (dr_start d)) / scale (transform c) in
          let dy := (p_y sp - p_y (dr_start d)) / scale (transform c) in
          set_heap c
            (alter (fun rect =>
                      mkRect (r_data rect)
                        (p_x (dr_initPos d) + dx) (p_y (dr_initPos d) + dy)
                        (r_width rect) (r_height rect))
                   (dr_rect d) (heap c))
      | None =>
          match panning c with
          | Some pn =>
              let t := transform c in
              set_transform c
                (mkTransform (scale t)
                   (translateX (pn_initTrans pn) + (p_x sp - p_x (pn_start pn)))
                   (translateY (pn_initTrans pn) + (p_y sp - p_y (pn_start pn))))
          | None => c
          end
      end
  end.

Definition handlePointerMove (c : Chart) (e : PointerEvent) : Chart :=
  let sp := mkPoint (clientX e) (clientY e) in
  if JsMap.has (pointers c) (pointerId e) then
    let c := set_pointers c (JsMap.set (pointers c) (pointerId e) sp) in
    match pinch c, JsMap.values (pointers c) with
    | Some p, [p0; p1] => pinchMove c p p0 p1
    | _, _ => singleMove c sp
    end
  else updateCursor c sp.

Definition handlePointerUp (c : Chart) (e : PointerEvent) : Chart :=
  let c := set_pointers c (snd (JsMap.delete (pointers c) (pointerId e))) in
  let c :=
    if (JsMap.size (pointers c) <? 2)%nat then set_pinch c None else c in
  if (JsMap.size (pointers c) =? 0)%nat then
    let c := set_draggingRect c None in
    let c := set_resizingRect c None in
    let c := set_panning c None in
    updateCursor c (mkPoint (clientX e) (clientY e))
  else c.

(** The events delivered to the canvas; [pointercancel] runs the
    pointer-up handler. *)
Inductive Event :=
| PointerDown (e : PointerEvent)
| PointerMove (e : PointerEvent)
| PointerUp (e : PointerEvent)
| PointerCancel (e : PointerEvent)
| Wheel (e : WheelEvent).

Definition dispatch (c : Chart) (ev : Event) : Chart :=
  match ev with
  | PointerDown e => handlePointerDown c e
  | PointerMove e => handlePointerMove c e
  | PointerUp e => handlePointerUp c e
  | PointerCancel e => handlePointerUp c e
  | Wheel e => handleWheel c e
  end.

Definition run (c : Chart) (evs : list Event) : Chart :=
  foldl dispatch c evs.

End Handlers.

(** ** Observations on the gesture state *)

Definition flag {A : Type} (o : option A) : nat :=
  match o with Some _ => 1%nat | None => 0%nat end.

(** How many of the four gesture fields are set. *)
Definition activeGestures (c : Chart) : nat :=
  (flag (draggingRect c) + flag (resizingRect c)
   + flag (panning c) + flag (pinch c))%nat.

(** A chart on which no interaction is in progress. *)
Definition idle (c : Chart) : Prop :=
  pointers c = [] /\ activeGestures c = 0%nat.

(** A chart as the constructor leaves it, with a canvas of the given size. *)
Definition newChart (w h : Q) : Chart :=
  mkChart w h "default" [] [] (mkTransform 1 0 0) [] [] None None None None.

(** A computable stand-in for [Math.hypot] on which the handlers can be run:
    the integer square root of the reduced fraction, exact whenever
    [dx² + dy²] is the square of a rational.  The theorems below hold for
    every [hypot]; this one only serves the closed examples. *)
Definition hypotQ (dx dy : Q) : Q :=
  let s := Qred (dx * dx + dy * dy) in
  Z.sqrt (Qnum s * Zpos (Qden s)) # Qden s.

(** Event lists in which every pointer-down arrives while no pointer is
    tracked: one pointer at a time. *)
Fixpoint singlePointer (hypot : Q -> Q -> Q) (c : Chart) (evs : list Event)
  : Prop :=
  match evs with
  | [] => True
  | ev :: rest =>
      match ev with PointerDown _ => pointers c = [] | _ => True end
      /\ singlePointer hypot (dispatch hypot c ev) rest
  end.

(** The invariant of one-pointer interaction: at most one tracked pointer,
    no pinch, at most one gesture, and none without a pointer. *)
Definition tidy (c : Chart) : Prop :=
  (length (pointers c) <= 1)%nat
  /\ pinch c = None
  /\ (activeGestures c <= 1)%nat
  /\ (pointers c = [] -> activeGestures c = 0%nat).







(** The minimum-size floor at scale [s]. *)
Definition floored (s : Q) (r : Rectangle) : Prop :=
  RECT_STYLE.minWidth / s <= r_width r
  /\ calculateMinimumHeight r s <= r_height r.



(** Every address bound in the [rectangles] map is live in the store. *)
Definition wf_chart (c : Chart) : Prop :=
  forall k a, JsMap.get (rectangles c) k = Some a -> (a < length (heap c))%nat.

(** A rectangle and charts for the closed examples. *)
Definition sampleData : RectData :=
  mkData "a" "A" [mkEntry "e1" "x" "int"; mkEntry "e2" "y" "int"].

Definition sampleChart : Chart :=
  snd (addRectangle (1 # 2) (1 # 2) sampleData (newChart 800 600)).




(** A rectangle of the default size. *)
Definition defaultRect : Rectangle := mkRect sampleData 0 0 200 120.

(** Two entities joined by a connection between their entries. *)
Definition linkedChart : Chart :=
  let c := snd (addRectangle (1 # 2) (1 # 2)
                  (mkData "x" "X" [mkEntry "e1" "f" "int"])
                  (newChart 800 600)) in
  let c := snd (addRectangle (1 # 4) (1 # 4)
                  (mkData "y" "Y" [mkEntry "e2" "g" "int"]) c) in
  snd (addConnection "k1" (mkEndpoint "x" (Some "e1"))
         (mkEndpoint "y" (Some "e2")) c).



(** The invariants the chart's own operations keep: bound addresses are
    live, and each map has one binding per key. *)
Definition chartInv (c : Chart) : Prop :=
  wf_chart c
  /\ NoDup (map fst (rectangles c))
  /\ NoDup (map fst (connections c)).

(** The CRUD calls a host can make on the chart between input events. *)
Inductive Call :=
| AddRectangle (u v : Q) (data : RectData)
| RemoveRectangle (id : string)
| UpdateRectangle (id : string) (data : RectData)
| AddConnection (uuid : string) (a b : Endpoint)
| RemoveConnection (id : string).

Definition perform (c : Chart) (k : Call) : Chart :=
  match k with
  | AddRectangle u v data => snd (addRectangle u v data c)
  | RemoveRectangle id => snd (removeRectangle id c)
  | UpdateRectangle id data => snd (updateRectangle id data c)
  | AddConnection uuid a b => snd (addConnection uuid a b c)
  | RemoveConnection id => snd (removeConnection id c)
  end.

(** What input events must leave alone: the two maps, the canvas size,
    the number of objects in the store and the data of each. *)
Definition sameEntities (c c' : Chart) : Prop :=
  rectangles c' = rectangles c
  /\ connections c' = connections c
  /\ canvas_width c' = canvas_width c
  /\ canvas_height c' = canvas_height c
  /\ length (heap c') = length (heap c)
  /\ forall a, r_data <$> heap c' !! a = r_data <$> heap c !! a.

(** A session: host calls and input events in any interleaving. *)
Inductive Step :=
| Host (k : Call)
| Input (ev : Event).

Definition step (hypot : Q -> Q -> Q) (c : Chart) (s : Step) : Chart :=
  match s with
  | Host k => perform c k
  | Input ev => dispatch hypot c ev
  end.

Definition session (hypot : Q -> Q -> Q) (c : Chart) (steps : list Step)
  : Chart :=
  foldl (step hypot) c steps.

(** A chart in the middle of the drag gesture [d] that pointer [pid]
    opened on the chart [c0]. *)
Definition draggingFrom (d : DragState) (pid : Z) (c0 c : Chart) : Prop :=
  draggingRect c = Some d
  /\ resizingRect c = None
  /\ (exists sp, pointers c = [(pid, sp)])
  /\ transform c = transform c0
  /\ (forall a, a <> dr_rect d -> heap c !! a = heap c0 !! a)
  /\ exists r0 r,
       heap c0 !! dr_rect d = Some r0
       /\ heap c !! dr_rect d = Some r
       /\ dr_initPos d = mkPoint (r_x r0) (r_y r0)
       /\ r_data r = r_data r0
       /\ r_width r = r_width r0
       /\ r_height r = r_height r0.

(** A chart in the middle of the pan gesture [pn] that pointer [pid]
    opened on the chart [c0]. *)
Definition panningFrom (pn : PanState) (pid : Z) (c0 c : Chart) : Prop :=
  panning c = Some pn
  /\ resizingRect c = None
  /\ draggingRect c = None
  /\ (exists sp, pointers c = [(pid, sp)])
  /\ scale (transform c) = scale (transform c0)
  /\ heap c = heap c0.

(** ** Drawing

    [draw] is modelled by the sequence of calls it makes on the 2D
    context.  A font is kept as its pixel size and family. *)

Inductive CanvasCmd :=
| SetTransform (a b c d e f : Q)
| ClearRect (x y w h : Q)
| Save
| Restore
| SetFillStyle (s : string)
| SetStrokeStyle (s : string)
| SetLineWidth (w : Q)
| FillRect (x y w h : Q)
| StrokeRect (x y w h : Q)
| SetTextBaseline (s : string)
| SetFont (px : Q) (family : string)
| SetTextAlign (s : string)
| FillText (text : string) (x y : Q)
| BeginPath
| MoveTo (x y : Q)
| BezierCurveTo (cp1x cp1y cp2x cp2y x y : Q)
| Stroke.

(** The remaining fields of [RECT_STYLE]. *)
Module RECT_PAINT.
Definition fontFamily : string := "sans-serif".
Definition fillStyle : string := "#fff".
Definition strokeStyle : string := "#000".
Definition textColor : string := "#000".
End RECT_PAINT.

Definition drawRectangle (c : Chart) (r : Rectangle) : list CanvasCmd :=
  let scale := scale (transform c) in
  let pad := RECT_STYLE.padding / scale in
  let titleFontSize := RECT_STYLE.titleFontSize / scale in
  let entryFontSize := RECT_STYLE.entryFontSize / scale in
  let titleLineHeight := titleFontSize * 1.2 in
  let entryLineHeight := RECT_STYLE.lineHeight / scale in
  let titleX := r_x r + r_width r / 2 in
  let titleY := r_y r + pad in
  let entryStartY := titleY + titleLineHeight in
  [SetFillStyle RECT_PAINT.fillStyle;
   SetStrokeStyle RECT_PAINT.strokeStyle;
   SetLineWidth (1 / scale);
   FillRect (r_x r) (r_y r) (r_width r) (r_height r);
   StrokeRect (r_x r) (r_y r) (r_width r) (r_height r);
   SetFillStyle RECT_PAINT.textColor;
   SetTextBaseline "top";
   SetFont titleFontSize RECT_PAINT.fontFamily;
   SetTextAlign "center";
   FillText (d_title (r_data r)) titleX titleY;
   SetFont entryFontSize RECT_PAINT.fontFamily]
  ++ mjoin
       (imap
          (fun i e =>
             let y := entryStartY + inject_Z (Z.of_nat i) * entryLineHeight in
             [SetTextAlign "left";
              FillText (e_left e) (r_x r + pad) y;
              SetTextAlign "right";
              FillText (e_right e) (r_x r + r_width r - pad) y])
          (d_entries (r_data r))).

(** The calls of [drawConnections], one stroked path per routed curve. *)
Definition strokeConnections (c : Chart) : list CanvasCmd :=
  [Save; SetStrokeStyle "#0066ff"; SetLineWidth (2 / scale (transform c))]
  ++ mjoin
       (map
          (fun b =>
             [BeginPath;
              MoveTo (p_x (b_from b)) (p_y (b_from b));
              BezierCurveTo (p_x (b_cp1 b)) (p_y (b_cp1 b))
                (p_x (b_cp2 b)) (p_y (b_cp2 b))
                (p_x (b_to b)) (p_y (b_to b));
              Stroke])
          (drawConnections c))
  ++ [Restore].

(** The rectangle objects in the order [rectangles.values()] yields them. *)
Definition rectangleObjects (c : Chart) : list Rectangle :=
  omap (fun a => heap c !! a) (JsMap.values (rectangles c)).

Definition draw (c : Chart) : list CanvasCmd :=
  [SetTransform 1 0 0 1 0 0;
   ClearRect 0 0 (canvas_width c) (canvas_height c);
   SetTransform (scale (transform c)) 0 0 (scale (transform c))
     (translateX (transform c)) (translateY (transform c))]
  ++ strokeConnections c
  ++ mjoin (map (drawRectangle c) (rectangleObjects c)).

(** The boxes filled and the curves stroked by a command sequence, in
    order. *)
Definition filledBoxes (cmds : list CanvasCmd) : list Geometry :=
  omap (fun k => match k with
                 | FillRect x y w h => Some (mkGeometry x y w h)
                 | _ => None
                 end) cmds.

Definition curveEnds (cmds : list CanvasCmd) : list Point :=
  omap (fun k => match k with
                 | BezierCurveTo _ _ _ _ x y => Some (mkPoint x y)
                 | _ => None
                 end) cmds.

Definition boxOf (r : Rectangle) : Geometry :=
  mkGeometry (r_x r) (r_y r) (r_width r) (r_height r).

(** ** Demo data

    [Math.random] and [crypto.randomUUID] are two sources read in call
    order: the sequence each yields, and how far it has been read. *)

Record Entropy := mkEntropy {
  numbers : nat -> Q;
  uuids : nat -> string;
  numbersRead : nat;
  uuidsRead : nat }.

Definition random (st : Entropy) : Q * Entropy :=
  (numbers st (numbersRead st),
   mkEntropy (numbers st) (uuids st) (S (numbersRead st)) (uuidsRead st)).

Definition randomUUID (st : Entropy) : string * Entropy :=
  (uuids st (uuidsRead st),
   mkEntropy (numbers st) (uuids st) (numbersRead st) (S (uuidsRead st))).

Definition hexDigits : string := "0123456789abcdef".

(** [hex[k]] appended to a string: the digit, or the text of [undefined]
    when [k] is out of range. *)
Definition hexAt (k : Z) : string :=
  if (k <? 0)%Z then "undefined"
  else match String.get (Z.to_nat k) hexDigits with
       | Some ch => String ch EmptyString
       | None => "undefined"
       end.

Fixpoint randomHex_loop (n : nat) (s : string) (st : Entropy)
  : string * Entropy :=
  match n with
  | O => (s, st)
  | S n' =>
      let '(r, st) := random st in
      randomHex_loop n' (s ++ hexAt (Qfloor (r * 16))) st
  end.

Definition randomHex (len : Z) (st : Entropy) : string * Entropy :=
  randomHex_loop (Z.to_nat len) "" st.

Fixpoint generateEntries (n : nat) (entries : list RectEntry) (st : Entropy)
  : list RectEntry * Entropy :=
  match n with
  | O => (entries, st)
  | S n' =>
      let '(id, st) := randomUUID st in
      let '(r, st) := random st in
      let '(l, st) := randomHex (6 + Qfloor (r * 11)) st in
      let '(r, st) := random st in
      let '(r', st) := randomHex (6 + Qfloor (r * 11)) st in
      generateEntries n' (entries ++ [mkEntry id l r']) st
  end.

Fixpoint generateDummyData_loop (n : nat) (ds : list RectData) (st : Entropy)
  : list RectData * Entropy :=
  match n with
  | O => (ds, st)
  | S n' =>
      let '(r, st) := random st in
      let '(title, st) := randomHex (6 + Qfloor (r * 11)) st in
      let '(r, st) := random st in
      let n := (3 + Qfloor (r * 4))%Z in
      let '(entries, st) := generateEntries (Z.to_nat n) [] st in
      let '(id, st) := randomUUID st in
      generateDummyData_loop n' (ds ++ [mkData id title entries]) st
  end.

Definition generateDummyData (count : Z) (st : Entropy)
  : list RectData * Entropy :=
  generateDummyData_loop (Z.to_nat count) [] st.

(** Every number the source yields lies in [[0, 1)], as [Math.random]
    promises. *)
Definition fair (st : Entropy) : Prop :=
  forall i, 0 <= numbers st i /\ numbers st i < 1.

Fixpoint allHex (s : string) : bool :=
  match s with
  | EmptyString => true
  | String ch rest =>
      match String.index 0 (String ch EmptyString) hexDigits with
      | Some _ => allHex rest
      | None => false
      end
  end.

(** A text of 6 to 16 hexadecimal digits. *)
Definition hexWord (s : string) : Prop :=
  (6 <= String.length s <= 16)%nat /\ allHex s = true.

(** A source for the closed examples: the numbers cycle through
    0, 1/4, 1/2, 3/4 and the ids are "u", "iu", "iiu", ... *)
Fixpoint tally (n : nat) : string :=
  match n with
  | O => "u"
  | S n' => "i" +:+ tally n'
  end.

Definition sampleEntropy : Entropy :=
  mkEntropy (fun i => inject_Z (Z.of_nat (i mod 4)) / 4) tally 0 0.

(** A chart in the middle of the pinch [p] that is in progress on the
    chart [c0]: the same pinch record, two pointers tracked, and every
    rectangle where [c0] has it. *)
Definition pinchingFrom (p : PinchState) (c0 c : Chart) : Prop :=
  pinch c = Some p
  /\ length (pointers c) = 2%nat
  /\ heap c = heap c0.

(** Pointer-moves of a pinch: each comes from a tracked pointer. *)
Fixpoint pinchMoves (hypot : Q -> Q -> Q) (c : Chart)
  (moves : list PointerEvent) : Prop :=
  match moves with
  | [] => True
  | e :: rest =>
      JsMap.has (pointers c) (pointerId e) = true
      /\ pinchMoves hypot (handlePointerMove hypot c e) rest
  end.

(** Every id a list of rectangle data carries, in the order the ids were
    drawn: the entries' ids, then the rectangle's own. *)
Definition allIds (ds : list RectData) : list string :=
  mjoin (map (fun d => map e_id (d_entries d) ++ [d_id d]) ds).

(** [data.forEach(x => chart.addRectangle(x))]: each call reads its two
    position draws from [Math.random]. *)
Fixpoint addRectangles (data : list RectData) (c : Chart) (st : Entropy)
  : Chart * Entropy :=
  match data with
  | [] => (c, st)
  | d :: rest =>
      let '(u, st) := random st in
      let '(v, st) := random st in
      addRectangles rest (snd (addRectangle u v d c)) st
  end.

(** [main] on a window of the given inner size: the chart it leaves in
    [window.chart], and what its final [chart.draw()] paints. *)
Definition main (innerWidth innerHeight : Q) (st : Entropy)
  : Chart * list CanvasCmd :=
  let chart := newChart innerWidth innerHeight in
  let '(data, st) := generateDummyData 5 st in
  let '(chart, st) := addRectangles data chart st in
  let ids := map d_id data in
  let chart :=
    match ids with
    | id0 :: id1 :: _ =>
        match lookupRectangle chart id0, lookupRectangle chart id1 with
        | Some fromRect, Some toRect =>
            let fromEntryId :=
              e_id <$> d_entries (r_data fromRect) !! 0%nat in
            let toEntryId :=
              e_id <$> last (d_entries (r_data toRect)) in
            match truthy fromEntryId, truthy toEntryId with
            | Some f, Some t =>
                let '(uuid, _) := randomUUID st in
                snd (addConnection uuid (mkEndpoint id0 (Some f))
                       (mkEndpoint id1 (Some t)) chart)
            | _, _ => chart
            end
        | _, _ => chart
        end
    | _ => chart
    end in
  (chart, draw chart).

(** * The handlers' arithmetic in binary64

    The source computes in IEEE 754 double precision.  The definitions of
    this module are the arithmetic of [screenToWorld], of [handleWheel], of
    the pinch branch and of the resize branch once more, operation by
    operation and in the source's order, over the kernel's binary64
    numbers: every operation rounds to nearest as JavaScript's does.  They
    serve to evaluate the code on concrete inputs where rounding, underflow
    or a zero divisor decides the outcome. *)

Module Double.
Import PrimFloat.
#[local] Set Warnings "-inexact-float".
Local Open Scope float_scope.

Record Point := mkPoint { p_x : float; p_y : float }.

Record Transform := mkTransform {
  scale : float;
  translateX : float;
  translateY : float
}.

Record Geometry := mkGeometry {
  g_x : float;
  g_y : float;
  g_w : float;
  g_h : float
}.

Record PinchState := mkPinch {
  startDist : float;
  startScale : float;
  mid : Point
}.

Module RECT_STYLE.
Definition padding : float := 8.
Definition lineHeight : float := 18.
Definition titleFontSize : float := 16.
Definition minWidth : float := 50.
End RECT_STYLE.

(** An array length as a number. *)
Fixpoint ofNat (n : nat) : float :=
  match n with
  | O => 0
  | S n' => ofNat n' + 1
  end.

Definition screenToWorld (t : Transform) (x y : float) : Point :=
  mkPoint ((x - translateX t) / scale t) ((y - translateY t) / scale t).

Definition handleWheel (t : Transform) (deltaY clientX clientY : float)
  : Transform :=
  let delta := - deltaY * 0.001 in
  let newScale := scale t * (1 + delta) in
  let wx := (clientX - translateX t) / scale t in
  let wy := (clientY - translateY t) / scale t in
  mkTransform newScale (clientX - wx * newScale) (clientY - wy * newScale).

(** The pinch branch of [handlePointerMove], on the two tracked pointers
    [p0] and [p1]. *)
Definition pinchMove (hypot : float -> float -> float) (t : Transform)
  (p : PinchState) (p0 p1 : Point) : Transform :=
  let dx := p_x p1 - p_x p0 in
  let dy := p_y p1 - p_y p0 in
  let dist := hypot dx dy in
  let scale := (dist / startDist p) * startScale p in
  let w0 := screenToWorld t (p_x (mid p)) (p_y (mid p)) in
  mkTransform scale (p_x (mid p) - p_x w0 * scale)
              (p_y (mid p) - p_y w0 * scale).

Definition calculateMinimumHeight (entries : nat) (scale : float) : float :=
  let titleFontSize := RECT_STYLE.titleFontSize / scale in
  let titleLineHeight := titleFontSize * 1.2 in
  let entryLineHeight := RECT_STYLE.lineHeight / scale in
  let pad := RECT_STYLE.padding / scale in
  let contentHeight := titleLineHeight + ofNat entries * entryLineHeight in
  contentHeight + pad * 2.

(** The resize branch of [handlePointerMove] on a rectangle with the
    geometry [rect] and [entries] entries, for the gesture that recorded
    [part], [start] and [init]. *)
Definition resizeRectangle (rect : Geometry) (entries : nat)
  (part : HitPart) (start : Point) (init : Geometry) (scale : float)
  (sp : Point) : Geometry :=
  let dx := (p_x sp - p_x start) / scale in
  let dy := (p_y sp - p_y start) / scale in
  let newX := g_x rect in
  let newY := g_y rect in
  let newW := g_w rect in
  let newH := g_h rect in
  let '(newX, newW) :=
    if includes part "left" then (g_x init + dx, g_w init - dx)
    else (newX, newW) in
  let newW := if includes part "right" then g_w init + dx else newW in
  let '(newY, newH) :=
    if includes part "top" then (g_y init + dy, g_h init - dy)
    else (newY, newH) in
  let newH := if includes part "bottom" then g_h init + dy else newH in
  let minHeight := calculateMinimumHeight entries scale in
  let minWidth := RECT_STYLE.minWidth / scale in
  let '(newX, newW) :=
    if newW <? minWidth then
      (if includes part "left" then g_x rect + g_w rect - minWidth
       else newX,
       minWidth)
    else (newX, newW) in
  let '(newY, newH) :=
    if newH <? minHeight then
      (if includes part "top" then g_y rect + g_h rect - minHeight
       else newY,
       minHeight)
    else (newY, newH) in
  mkGeometry newX newY newW newH.

End Double.


(** * Properties *)

(** ** Numbers and maps *)

Lemma Qltb_spec (a b : Q) : reflect (a < b) (Qltb a b).
Proof.
  unfold Qltb. destruct (Qle_bool b a) eqn:E; simpl; constructor.
  - apply Qle_bool_iff in E. lra.
  - destruct (Qlt_le_dec a b) as [Hlt|Hle]; [exact Hlt|].
    apply Qle_bool_iff in Hle. congruence.
Qed.


Lemma Qltb_false (a b : Q) : Qltb a b = false <-> b <= a.
Proof. destruct (Qltb_spec a b); split; intros; try done; lra. Qed.


(** [lra] reads a product by a constant but not a quotient. *)
Lemma Qdiv2 (a : Q) : a / 2 == a * (1 # 2).
Proof. field. Qed.


Section JsMapFacts.
Context {K : Type} `{EqDecision K} {V : Type}.
Implicit Types (m : list (K * V)) (k : K) (v : V).

Lemma JsMap_get_set_eq m k v : JsMap.get (JsMap.set m k v) k = Some v.
Proof.
  induction m as [|[k' v'] m IH]; simpl.
  - by rewrite decide_True.
  - destruct (decide (k = k')) as [->|Hne]; simpl.
    + by rewrite decide_True.
    + by rewrite decide_False.
Qed.

Lemma JsMap_get_set_ne m k k' v : k <> k' -> JsMap.get (JsMap.set m k v) k' = JsMap.get m k'.
Proof.
  intros Hne. induction m as [|[k0 v0] m IH]; simpl.
  - by rewrite decide_False.
  - destruct (decide (k = k0)) as [->|Hk]; simpl.
    + by rewrite !decide_False.
    + destruct (decide (k' = k0)); done.
Qed.

Lemma JsMap_size_set_present m k v :
  JsMap.has m k = true -> JsMap.size (JsMap.set m k v) = JsMap.size m.
Proof.
  unfold JsMap.has, JsMap.size. induction m as [|[k' v'] m IH]; simpl; [done|].
  destruct (decide (k = k')) as [->|Hk]; simpl; [done|].
  intros H. by rewrite IH.
Qed.

Lemma JsMap_size_set_absent m k v :
  JsMap.has m k = false -> JsMap.size (JsMap.set m k v) = S (JsMap.size m).
Proof.
  unfold JsMap.has, JsMap.size. induction m as [|[k' v'] m IH]; simpl; [done|].
  destruct (decide (k = k')) as [->|Hk]; simpl; [done|].
  intros H. by rewrite IH.
Qed.

Lemma JsMap_set_keys_present m k v :
  JsMap.has m k = true -> map fst (JsMap.set m k v) = map fst m.
Proof.
  unfold JsMap.has. induction m as [|[k' v'] m IH]; simpl; [done|].
  destruct (decide (k = k')) as [->|Hk]; simpl; [done|].
  intros H. by rewrite IH.
Qed.

Lemma JsMap_has_set m k k' v :
  JsMap.has (JsMap.set m k v) k' = bool_decide (k = k') || JsMap.has m k'.
Proof.
  unfold JsMap.has. destruct (decide (k = k')) as [->|Hne].
  - by rewrite JsMap_get_set_eq, bool_decide_eq_true_2.
  - by rewrite JsMap_get_set_ne, bool_decide_eq_false_2.
Qed.

Lemma JsMap_values_set_single k k' (v v' : V) :
  JsMap.has [(k', v')] k = true ->
  JsMap.values (JsMap.set [(k', v')] k v) = [v].
Proof.
  unfold JsMap.has. simpl. destruct (decide (k = k')); [done|discriminate].
Qed.

End JsMapFacts.

(** ** Hit testing *)

Section HitTesting.
Import Rectangle.















End HitTesting.




(** ** Entities *)

Lemma wf_newChart w h : wf_chart (newChart w h).
Proof. intros k a. discriminate. Qed.

Lemma wf_addRectangle u v data c :
  wf_chart c -> wf_chart (snd (addRectangle u v data c)).
Proof.
  intros Hwf k a. simpl. rewrite length_app. simpl.
  destruct (decide (Rectangle.id (mkRect data
       (u * (canvas_width c / scale (transform c) - 200))
       (v * (canvas_height c / scale (transform c) - 120)) 200 120) = k))
    as [<-|Hne].
  - rewrite JsMap_get_set_eq. intros [= <-]. lia.
  - rewrite JsMap_get_set_ne by done. intros H%Hwf. lia.
Qed.

Lemma lookup_addRectangle u v data c :
  lookupRectangle (snd (addRectangle u v data c)) (d_id data)
  = Some (mkRect data
            (u * (canvas_width c / scale (transform c) - 200))
            (v * (canvas_height c / scale (transform c) - 120))
            200 120).
Proof.
  unfold lookupRectangle, addRectangle, Rectangle.id. simpl.
  rewrite JsMap_get_set_eq. simpl.
  by rewrite lookup_app_r, Nat.sub_diag.
Qed.

(** C2 (code at the failing input).  [addRectangle] hands back no value:
    the rectangle is stored under the id of its data, but the caller gets
    [undefined], not that id. *)
Theorem addRectangle_returns_undefined :
  fst (addRectangle (1 # 2) (1 # 2) sampleData (newChart 800 600)) = Undefined
  /\ fst (addRectangle (1 # 2) (1 # 2) sampleData (newChart 800 600))
     <> Str (d_id sampleData)
  /\ JsMap.has (rectangles sampleChart) (d_id sampleData) = true.
Proof. repeat split; discriminate. Qed.

(** C9.  Adding data whose id already keys an entity replaces that entity:
    the map keeps its size and its key order, and the key now resolves to a
    new rectangle of the default size 200 x 120 at the position given by
    the two random draws, whatever the geometry of the old one was. *)
Theorem addRectangle_existing_id (u v : Q) (data : RectData) (c : Chart) :
  JsMap.has (rectangles c) (d_id data) = true ->
  let c' := snd (addRectangle u v data c) in
  JsMap.size (rectangles c') = JsMap.size (rectangles c)
  /\ map fst (rectangles c') = map fst (rectangles c)
  /\ lookupRectangle c' (d_id data)
     = Some (mkRect data
               (u * (canvas_width c / scale (transform c) - 200))
               (v * (canvas_height c / scale (transform c) - 120))
               200 120).
Proof.
  intros Hhas c'. repeat split.
  - by apply JsMap_size_set_present.
  - by apply JsMap_set_keys_present.
  - apply lookup_addRectangle.
Qed.

Lemma addRectangle_existing_id_witness :
  JsMap.size (rectangles
                (snd (addRectangle (1 # 4) (3 # 4) sampleData sampleChart)))
  = JsMap.size (rectangles sampleChart).
Proof.
  apply (addRectangle_existing_id (1 # 4) (3 # 4) sampleData sampleChart).
  reflexivity.
Defined.

(** C10.  [updateRectangle] does not look at the id inside the payload:
    when it returns [true] the map is unchanged, the key [id] resolves to
    the same object now carrying [data], and the object's [id] getter
    reports [d_id data], which differs from the key whenever the payload
    carries another id. *)
Theorem updateRectangle_keeps_key (id : string) (data : RectData)
  (c c' : Chart) :
  wf_chart c ->
  updateRectangle id data c = (true, c') ->
  rectangles c' = rectangles c
  /\ exists r r',
       lookupRectangle c id = Some r
       /\ lookupRectangle c' id = Some r'
       /\ r' = with_data data r
       /\ r_data r' = data
       /\ Rectangle.id r' = d_id data
       /\ (d_id data <> id -> Rectangle.id r' <> id).
Proof.
  intros Hwf. unfold updateRectangle, lookupRectangle.
  destruct (JsMap.get (rectangles c) id) as [a|] eqn:Hget; [|discriminate].
  intros [= <-]. simpl. split; [done|].
  rewrite Hget. simpl. rewrite list_lookup_alter.
  destruct (lookup_lt_is_Some_2 (heap c) a (Hwf _ _ Hget)) as [r Hr].
  rewrite Hr. simpl. exists r, (with_data data r). by rewrite decide_True.
Qed.

Lemma updateRectangle_keeps_key_witness :
  exists r',
    lookupRectangle
      (snd (updateRectangle "a" (mkData "b" "B" []) sampleChart)) "a"
    = Some r'
    /\ Rectangle.id r' = "b".
Proof.
  destruct (updateRectangle_keeps_key "a" (mkData "b" "B" []) sampleChart
              (snd (updateRectangle "a" (mkData "b" "B" []) sampleChart)))
    as (_ & r & r' & _ & H1 & _ & _ & H2 & _).
  - apply wf_addRectangle, wf_newChart.
  - reflexivity.
  - exists r'. split; [exact H1|exact H2].
Defined.

Lemma JsMap_get_notin {K V : Type} `{EqDecision K} (m : list (K * V)) k :
  k ∉ map fst m -> JsMap.get m k = None.
Proof.
  induction m as [|[k' v'] m IH]; simpl; [done|].
  intros [Hne Hin]%not_elem_of_cons. by rewrite decide_False; auto.
Qed.

Lemma JsMap_get_remove {K V : Type} `{EqDecision K} (m : list (K * V)) k :
  NoDup (map fst m) -> JsMap.get (JsMap.remove m k) k = None.
Proof.
  induction m as [|[k' v'] m IH]; simpl; [done|].
  intros [Hnotin Hnd]%NoDup_cons.
  destruct (decide (k = k')) as [->|Hne].
  - by apply JsMap_get_notin.
  - simpl. rewrite decide_False by done. auto.
Qed.

(** ** Connections and their anchors *)







(** C8.  An endpoint whose rectangle id is not in the entity map resolves
    to the world origin on either side; removing an entity leaves the
    connection map as it was, so every connection is still listed and still
    drawn; and an endpoint that refers to the removed id resolves to the
    origin from then on. *)
Theorem dangling_endpoint_origin (c : Chart) :
  (forall ep isFrom,
     JsMap.get (rectangles c) (rectId ep) = None ->
     getEndpointPosition c ep isFrom = mkPoint 0 0)
  /\ (forall id,
        getConnections (snd (removeRectangle id c)) = getConnections c
        /\ length (drawConnections (snd (removeRectangle id c)))
           = length (getConnections c))
  /\ (forall id ep isFrom,
        NoDup (map fst (rectangles c)) ->
        rectId ep = id ->
        getEndpointPosition (snd (removeRectangle id c)) ep isFrom
        = mkPoint 0 0).
Proof.
  assert (forall c' ep isFrom,
            JsMap.get (rectangles c') (rectId ep) = None ->
            getEndpointPosition c' ep isFrom = mkPoint 0 0) as Horigin.
  { intros c' ep isFrom H. unfold getEndpointPosition, lookupRectangle.
    by rewrite H. }
  split; [apply Horigin|]. split.
  - intros id. split; [done|].
    unfold drawConnections. by rewrite length_map.
  - intros id ep isFrom Hnd <-. apply Horigin. simpl.
    by apply JsMap_get_remove.
Qed.

Lemma dangling_endpoint_origin_witness :
  getEndpointPosition (snd (removeRectangle "x" linkedChart))
    (mkEndpoint "x" (Some "e1")) true = mkPoint 0 0
  /\ getConnections (snd (removeRectangle "x" linkedChart))
     = [mkConnection "k1" (mkEndpoint "x" (Some "e1"))
          (mkEndpoint "y" (Some "e2"))].
Proof.
  destruct (dangling_endpoint_origin (snd (removeRectangle "x" linkedChart)))
    as (H1 & _ & _).
  destruct (dangling_endpoint_origin linkedChart) as (_ & H2 & _).
  split.
  - apply H1. reflexivity.
  - rewrite (proj1 (H2 "x")). reflexivity.
Defined.

(** ** The gesture state machine *)

Section Gestures.
Variable hypot : Q -> Q -> Q.

Lemma idle_tidy c : idle c -> tidy c.
Proof.
  unfold idle, tidy, activeGestures. intros [Hp Ha]. rewrite Hp. simpl.
  repeat split; try lia.
  destruct (pinch c); [simpl in Ha; lia|done].
Qed.

Lemma JsMap_remove_length {K V : Type} `{EqDecision K} (m : list (K * V)) k :
  (length (JsMap.remove m k) <= length m)%nat.
Proof.
  induction m as [|[k' v'] m IH]; simpl; [lia|].
  destruct (decide (k = k')); simpl; lia.
Qed.

Lemma updateCursor_gestures c sp :
  pointers (updateCursor c sp) = pointers c
  /\ pinch (updateCursor c sp) = pinch c
  /\ activeGestures (updateCursor c sp) = activeGestures c
  /\ transform (updateCursor c sp) = transform c
  /\ heap (updateCursor c sp) = heap c
  /\ resizingRect (updateCursor c sp) = resizingRect c.
Proof.
  destruct c as [cw ch cur hp rs tr ps cs dg rz pn pc].
  unfold updateCursor. simpl. destruct pc, pn, rz, dg; try done.
  match goal with |- context [hitTest ?a ?x ?y] => by destruct (hitTest a x y)
  end.
Qed.

Lemma singleMove_gestures c sp :
  pointers (singleMove c sp) = pointers c
  /\ pinch (singleMove c sp) = pinch c
  /\ activeGestures (singleMove c sp) = activeGestures c.
Proof.
  destruct c as [cw ch cur hp rs tr ps cs dg rz pn pc].
  unfold singleMove. simpl. by destruct rz, dg, pn.
Qed.

Lemma tidy_down c e :
  tidy c -> pointers c = [] -> tidy (handlePointerDown hypot c e).
Proof.
  destruct c as [cw ch cur hp rs tr ps cs dg rz pn pc].
  unfold tidy, activeGestures. simpl.
  intros (_ & -> & _ & Hnone) ->. specialize (Hnone eq_refl).
  destruct dg; [simpl in Hnone; lia|].
  destruct rz; [simpl in Hnone; lia|].
  destruct pn; [simpl in Hnone; lia|].
  unfold handlePointerDown. simpl.
  match goal with |- context [hitTest ?a ?x ?y] =>
    destruct (hitTest a x y) as [[a' rect part]|] end; [destruct part|];
    simpl; repeat split; done || lia.
Qed.

Lemma tidy_move c e : tidy c -> tidy (handlePointerMove hypot c e).
Proof.
  intros (Hlen & Hpinch & Hact & Hnone). unfold handlePointerMove.
  destruct (JsMap.has (pointers c) (pointerId e)) eqn:Hhas.
  - simpl. rewrite Hpinch.
    destruct (singleMove_gestures
                (set_pointers c
                   (JsMap.set (pointers c) (pointerId e)
                      (mkPoint (clientX e) (clientY e))))
                (mkPoint (clientX e) (clientY e))) as (Hp' & Hq' & Ha').
    unfold tidy. rewrite Hp', Hq', Ha'. simpl.
    pose proof (JsMap_size_set_present (pointers c) (pointerId e)
                  (mkPoint (clientX e) (clientY e)) Hhas) as Hsz.
    unfold JsMap.size in Hsz. rewrite Hsz.
    repeat split; try done.
    intros Hnil. rewrite Hnil in Hsz. simpl in Hsz.
    destruct (pointers c); [by apply Hnone|done].
  - destruct (updateCursor_gestures c (mkPoint (clientX e) (clientY e)))
      as (Hp' & Hq' & Ha' & _).
    unfold tidy. by rewrite Hp', Hq', Ha'.
Qed.

Lemma tidy_up c e : tidy c -> tidy (handlePointerUp c e).
Proof.
  destruct c as [cw ch cur hp rs tr ps cs dg rz pn pc].
  intros (Hlen & Hpinch & Hact & Hnone). simpl in *. subst pc.
  pose proof (JsMap_remove_length ps (pointerId e)) as Hrem.
  unfold handlePointerUp, JsMap.size, JsMap.delete. simpl.
  destruct (JsMap.remove ps (pointerId e)) as [|q [|q' rest]] eqn:Hl;
    simpl in *; [| |lia].
  - match goal with |- tidy (updateCursor ?c' ?sp) =>
      destruct (updateCursor_gestures c' sp) as (Hp' & Hq' & Ha' & _) end.
    unfold tidy. rewrite Hp', Hq', Ha'. unfold activeGestures. simpl.
    repeat split; done || lia.
  - unfold tidy, activeGestures in *. simpl in *. repeat split; done || lia.
Qed.

Lemma tidy_dispatch c ev :
  tidy c ->
  match ev with PointerDown _ => pointers c = [] | _ => True end ->
  tidy (dispatch hypot c ev).
Proof.
  intros Ht Hev. destruct ev as [e|e|e|e|e]; simpl.
  - by apply tidy_down.
  - by apply tidy_move.
  - by apply tidy_up.
  - by apply tidy_up.
  - exact Ht.
Qed.

Lemma tidy_run evs : forall c,
  tidy c -> singlePointer hypot c evs -> tidy (run hypot c evs).
Proof.
  induction evs as [|ev evs IH]; intros c Ht Hs; [done|].
  destruct Hs as [Hev Hs]. unfold run. simpl. apply IH; [|done].
  by apply tidy_dispatch.
Qed.

End Gestures.

(** C3 (amended).  In every state reached from an idle chart by pointer
    and wheel events in which each pointer-down arrives while no pointer is
    tracked, at most one of [draggingRect], [resizingRect], [panning] and
    [pinch] is set. *)
Theorem single_pointer_one_gesture (hypot : Q -> Q -> Q) (c : Chart)
  (evs : list Event) :
  idle c ->
  singlePointer hypot c evs ->
  (activeGestures (run hypot c evs) <= 1)%nat.
Proof.
  intros Hidle Hs.
  destruct (tidy_run hypot evs c (idle_tidy c Hidle) Hs) as (_ & _ & H & _).
  exact H.
Qed.

Lemma single_pointer_one_gesture_witness :
  (activeGestures
     (run hypotQ sampleChart
        [PointerDown (mkPointerEvent 1 400 300);
         PointerMove (mkPointerEvent 1 420 310);
         PointerUp (mkPointerEvent 1 420 310);
         PointerDown (mkPointerEvent 1 300 300);
         PointerMove (mkPointerEvent 1 290 300)]) <= 1)%nat.
Proof.
  apply single_pointer_one_gesture.
  - split; reflexivity.
  - vm_compute. tauto.
Defined.

(** C3 as stated fails with two pointers: the first goes down inside a
    rectangle and starts a drag, the second goes down and starts a pinch,
    and nothing clears the drag.  Both fields are then set. *)
Lemma two_pointers_two_gestures_counterexample :
  idle sampleChart
  /\ ~ (activeGestures
          (run hypotQ sampleChart
             [PointerDown (mkPointerEvent 1 400 300);
              PointerDown (mkPointerEvent 2 403 304)]) <= 1)%nat
  /\ draggingRect
       (run hypotQ sampleChart
          [PointerDown (mkPointerEvent 1 400 300);
           PointerDown (mkPointerEvent 2 403 304)])
     = Some (mkDrag 0 (mkPoint 400 300)
               (mkPoint ((1 # 2) * (800 / 1 - 200))
                        ((1 # 2) * (600 / 1 - 120))))
  /\ pinch
       (run hypotQ sampleChart
          [PointerDown (mkPointerEvent 1 400 300);
           PointerDown (mkPointerEvent 2 403 304)])
     = Some (mkPinch 5 1 (mkPoint ((400 + 403) / 2) ((300 + 304) / 2))).
Proof.
  split; [split; reflexivity|].
  split; [vm_compute; lia|].
  split; reflexivity.
Qed.

(** ** The view transform under zoom and pan *)


Section Zoom.
Variable hypot : Q -> Q -> Q.








End Zoom.




(** ** Pinch zoom *)

(** The second pointer going down starts the pinch: it records the
    distance between the two pointers, the scale of the moment, and the
    midpoint. *)
Lemma pinch_start (hypot : Q -> Q -> Q) (c : Chart) (e : PointerEvent)
  (p0 p1 : Point) :
  JsMap.values
    (JsMap.set (pointers c) (pointerId e) (mkPoint (clientX e) (clientY e)))
  = [p0; p1] ->
  pinch (handlePointerDown hypot c e)
  = Some (mkPinch (hypot (p_x p1 - p_x p0) (p_y p1 - p_y p0))
            (scale (transform c))
            (mkPoint ((p_x p0 + p_x p1) / 2) ((p_y p0 + p_y p1) / 2))).
Proof. intros Hv. unfold handlePointerDown. simpl. by rewrite Hv. Qed.




(** ** Resizing *)

(** The hit parts by the edge names their strings contain. *)
Lemma includes_table part :
  (includes part "left", includes part "right",
   includes part "top", includes part "bottom")
  = match part with
    | Inside => (false, false, false, false)
    | Left => (true, false, false, false)
    | Right => (false, true, false, false)
    | Top => (false, false, true, false)
    | Bottom => (false, false, false, true)
    | TopLeft => (true, false, true, false)
    | TopRight => (false, true, true, false)
    | BottomLeft => (true, false, false, true)
    | BottomRight => (false, true, false, true)
    end.
Proof. by destruct part. Qed.

(** One resize step on the rectangle object: the data stay, the floor
    holds afterwards, a coordinate whose edge is not dragged is not
    assigned, and a dragged left or top edge gets the source's own
    expressions: the proposed position and length, or, when the proposed
    length is below the floor, the object's current far edge minus the
    floor. *)
Lemma resizeRectangle_spec r g s sp :
  r_data (resizeRectangle r g s sp) = r_data r
  /\ RECT_STYLE.minWidth / s <= r_width (resizeRectangle r g s sp)
  /\ calculateMinimumHeight (resizeRectangle r g s sp) s
     <= r_height (resizeRectangle r g s sp)
  /\ (includes (rs_part g) "left" = false ->
      r_x (resizeRectangle r g s sp) = r_x r)
  /\ (includes (rs_part g) "top" = false ->
      r_y (resizeRectangle r g s sp) = r_y r)
  /\ (includes (rs_part g) "left" = true ->
      (r_x (resizeRectangle r g s sp), r_width (resizeRectangle r g s sp))
      = if Qltb (g_w (rs_init g) - (p_x sp - p_x (rs_start g)) / s)
             (RECT_STYLE.minWidth / s)
        then (r_x r + r_width r - RECT_STYLE.minWidth / s,
              RECT_STYLE.minWidth / s)
        else (g_x (rs_init g) + (p_x sp - p_x (rs_start g)) / s,
              g_w (rs_init g) - (p_x sp - p_x (rs_start g)) / s))
  /\ (includes (rs_part g) "top" = true ->
      (r_y (resizeRectangle r g s sp), r_height (resizeRectangle r g s sp))
      = if Qltb (g_h (rs_init g) - (p_y sp - p_y (rs_start g)) / s)
             (calculateMinimumHeight r s)
        then (r_y r + r_height r - calculateMinimumHeight r s,
              calculateMinimumHeight r s)
        else (g_y (rs_init g) + (p_y sp - p_y (rs_start g)) / s,
              g_h (rs_init g) - (p_y sp - p_y (rs_start g)) / s)).
Proof.
  unfold resizeRectangle.
  assert (forall x y w h,
            calculateMinimumHeight (mkRect (r_data r) x y w h) s
            = calculateMinimumHeight r s) as Hmh by reflexivity.
  revert Hmh. generalize (calculateMinimumHeight r s). intros mh Hmh.
  generalize ((p_x sp - p_x (rs_start g)) / s)
    ((p_y sp - p_y (rs_start g)) / s) (RECT_STYLE.minWidth / s).
  intros dx dy mw.
  destruct g as [a part start [gx gy gw gh]]. simpl in *.
  destruct part;
    repeat match goal with |- context [includes ?p ?s] =>
      let b := eval vm_compute in (includes p s) in
      change (includes p s) with b end; simpl.
  all: repeat match goal with |- context [Qltb ?a ?b] =>
         destruct (Qltb_spec a b) end; simpl.
  all: rewrite ?Hmh; repeat split; try done; try lra.
Qed.



Lemma hitTest_from_live h addrs x y hit :
  hitTest_from h addrs x y = Some hit ->
  h !! h_rect hit = Some (h_obj hit).
Proof.
  induction addrs as [|a rest IH]; simpl; [done|].
  destruct (h !! a) as [rect|] eqn:Ha; [|exact IH].
  destruct (Rectangle.getHitPart rect x y); [|exact IH].
  by intros [= <-].
Qed.

Section Resizing.
Variable hypot : Q -> Q -> Q.




End Resizing.




(** The scenario of a bottom edge dragged upward past the content: the
    height stops at the computed minimum (71.2 for two entries at scale 1)
    and the top edge stays. *)
Example resize_bottom_stops_at_minimum :
  exists r',
    heap (run hypotQ sampleChart
            [PointerDown (mkPointerEvent 1 400 360);
             PointerMove (mkPointerEvent 1 400 100)]) !! 0%nat = Some r'
    /\ r_height r' == calculateMinimumHeight r' 1
    /\ r_height r' == 71.2
    /\ r_y r' == 240.
Proof. eexists. split; [reflexivity|]. by repeat split. Qed.

(** * Further properties of the chart *)

(** ** The insertion-ordered map *)

Section JsMapMore.
Context {K : Type} `{EqDecision K} {V : Type}.
Implicit Types (m : list (K * V)) (k : K) (v : V).

Lemma JsMap_has_elem m k : JsMap.has m k = true <-> k ∈ map fst m.
Proof.
  unfold JsMap.has. induction m as [|[k' v'] m IH]; simpl.
  - split; [done|]. by intros ?%elem_of_nil.
  - rewrite elem_of_cons. destruct (decide (k = k')) as [->|Hne].
    + split; auto.
    + rewrite IH. split; [by right|]. by intros [?|?].
Qed.

Lemma JsMap_has_false m k : JsMap.has m k = false <-> k ∉ map fst m.
Proof.
  rewrite <- JsMap_has_elem. by destruct (JsMap.has m k).
Qed.

Lemma JsMap_set_absent m k v :
  JsMap.has m k = false -> JsMap.set m k v = m ++ [(k, v)].
Proof.
  unfold JsMap.has. induction m as [|[k' v'] m IH]; simpl; [done|].
  destruct (decide (k = k')); [done|]. intros H. by rewrite IH.
Qed.

Lemma JsMap_remove_absent m k :
  JsMap.has m k = false -> JsMap.remove m k = m.
Proof.
  unfold JsMap.has. induction m as [|[k' v'] m IH]; simpl; [done|].
  destruct (decide (k = k')); [done|]. intros H. by rewrite IH.
Qed.

Lemma JsMap_get_remove_ne m k k' :
  k <> k' -> JsMap.get (JsMap.remove m k) k' = JsMap.get m k'.
Proof.
  intros Hne. induction m as [|[k0 v0] m IH]; simpl; [done|].
  destruct (decide (k = k0)) as [->|Hk]; simpl.
  - by rewrite decide_False.
  - by rewrite IH.
Qed.

Lemma JsMap_size_remove_present m k :
  JsMap.has m k = true ->
  S (JsMap.size (JsMap.remove m k)) = JsMap.size m.
Proof.
  unfold JsMap.has, JsMap.size. induction m as [|[k' v'] m IH]; simpl; [done|].
  destruct (decide (k = k')); simpl; [done|]. intros H. by rewrite IH.
Qed.

Lemma JsMap_remove_set_absent m k v :
  JsMap.has m k = false -> JsMap.remove (JsMap.set m k v) k = m.
Proof.
  unfold JsMap.has. induction m as [|[k' v'] m IH]; simpl.
  - by rewrite decide_True.
  - destruct (decide (k = k')) as [->|Hne]; [done|]. simpl.
    rewrite decide_False by done. intros H. by rewrite IH.
Qed.

Lemma JsMap_keys_set m k v :
  map fst (JsMap.set m k v)
  = if JsMap.has m k then map fst m else map fst m ++ [k].
Proof.
  destruct (JsMap.has m k) eqn:Hhas.
  - by apply JsMap_set_keys_present.
  - rewrite JsMap_set_absent by done. by rewrite map_app.
Qed.

Lemma JsMap_NoDup_set m k v :
  NoDup (map fst m) -> NoDup (map fst (JsMap.set m k v)).
Proof.
  intros Hnd. rewrite JsMap_keys_set. destruct (JsMap.has m k) eqn:Hhas.
  - done.
  - apply NoDup_app. split; [done|]. split; [|apply NoDup_singleton].
    intros x Hx ->%list_elem_of_singleton.
    by apply JsMap_has_false in Hhas.
Qed.

Lemma JsMap_keys_remove_sub m k x :
  x ∈ map fst (JsMap.remove m k) -> x ∈ map fst m.
Proof.
  induction m as [|[k' v'] m IH]; simpl; [done|].
  destruct (decide (k = k')); simpl.
  - by right.
  - rewrite !elem_of_cons. intros [?|?]; auto.
Qed.

Lemma JsMap_NoDup_remove m k :
  NoDup (map fst m) -> NoDup (map fst (JsMap.remove m k)).
Proof.
  induction m as [|[k' v'] m IH]; simpl; [done|].
  intros [Hnotin Hnd]%NoDup_cons.
  destruct (decide (k = k')); simpl; [done|].
  apply NoDup_cons. split; [|auto].
  intros Hin. by apply Hnotin, (JsMap_keys_remove_sub m k).
Qed.

End JsMapMore.

(** ** Entities: add, remove, update *)

Lemma set_rectangles_same c : set_rectangles c (rectangles c) = c.
Proof. by destruct c. Qed.

Lemma set_connections_same c : set_connections c (connections c) = c.
Proof. by destruct c. Qed.

(** X1.  [removeRectangle] on an id the map does not hold returns [false]
    and leaves the chart as it is; on an id it holds it returns [true], the
    map loses exactly that binding (the id no longer resolves, every other
    id resolves as before), and the connections are not touched. *)
Theorem removeRectangle_spec (id : string) (c : Chart) :
  NoDup (map fst (rectangles c)) ->
  (JsMap.has (rectangles c) id = false -> removeRectangle id c = (false, c))
  /\ (JsMap.has (rectangles c) id = true ->
      fst (removeRectangle id c) = true
      /\ S (JsMap.size (rectangles (snd (removeRectangle id c))))
         = JsMap.size (rectangles c)
      /\ lookupRectangle (snd (removeRectangle id c)) id = None)
  /\ (forall k, k <> id ->
        lookupRectangle (snd (removeRectangle id c)) k = lookupRectangle c k)
  /\ connections (snd (removeRectangle id c)) = connections c.
Proof.
  intros Hnd. unfold removeRectangle, JsMap.delete, lookupRectangle. simpl.
  repeat split.
  - intros Hno. rewrite Hno, JsMap_remove_absent by done.
    by rewrite set_rectangles_same.
  - done.
  - by apply JsMap_size_remove_present.
  - by rewrite JsMap_get_remove.
  - intros k Hk. by rewrite JsMap_get_remove_ne.
Qed.

Lemma removeRectangle_spec_witness :
  fst (removeRectangle "x" linkedChart) = true
  /\ lookupRectangle (snd (removeRectangle "x" linkedChart)) "x" = None
  /\ removeRectangle "z" linkedChart = (false, linkedChart).
Proof.
  destruct (removeRectangle_spec "x" linkedChart) as (_ & H & _).
  { compute_done. }
  destruct (removeRectangle_spec "z" linkedChart) as (Hz & _).
  { compute_done. }
  destruct (H eq_refl) as (H1 & _ & H3).
  split; [exact H1|]. split; [exact H3|]. apply Hz. reflexivity.
Defined.

(** X2.  [addRectangle] leaves every other id resolving to the rectangle
    it resolved to before; for an id the map does not hold yet, the map
    grows by one binding, placed last in insertion order. *)
Theorem addRectangle_frame (u v : Q) (data : RectData) (c : Chart) :
  wf_chart c ->
  (forall k, k <> d_id data ->
     lookupRectangle (snd (addRectangle u v data c)) k = lookupRectangle c k)
  /\ (JsMap.has (rectangles c) (d_id data) = false ->
      JsMap.size (rectangles (snd (addRectangle u v data c)))
      = S (JsMap.size (rectangles c))
      /\ map fst (rectangles (snd (addRectangle u v data c)))
         = map fst (rectangles c) ++ [d_id data]).
Proof.
  intros Hwf. split.
  - intros k Hk. unfold lookupRectangle, addRectangle, Rectangle.id. simpl.
    rewrite JsMap_get_set_ne by done.
    destruct (JsMap.get (rectangles c) k) as [a|] eqn:Hget; [|done]. simpl.
    apply lookup_app_l. by apply (Hwf k).
  - intros Hno. unfold addRectangle, Rectangle.id. simpl. split.
    + by apply JsMap_size_set_absent.
    + by rewrite JsMap_keys_set, Hno.
Qed.

Lemma addRectangle_frame_witness :
  lookupRectangle
    (snd (addRectangle (1 # 3) (1 # 3) (mkData "z" "Z" []) linkedChart)) "x"
  = lookupRectangle linkedChart "x".
Proof.
  destruct (addRectangle_frame (1 # 3) (1 # 3) (mkData "z" "Z" [])
              linkedChart) as [H _].
  - apply wf_addRectangle, wf_addRectangle, wf_newChart.
  - apply H. discriminate.
Defined.

Lemma hitTest_from_first h a rest x y rect part :
  h !! a = Some rect ->
  Rectangle.getHitPart rect x y = Some part ->
  hitTest_from h (a :: rest) x y = Some (mkHit a rect part).
Proof. intros Ha Hp. simpl. by rewrite Ha, Hp. Qed.

(** X3.  A rectangle added under a new id is on top: a point that touches
    it is attributed to it by [hitTest], whatever lies underneath. *)
Theorem addRectangle_on_top (u v : Q) (data : RectData) (c : Chart)
  (x y : Q) (part : HitPart) :
  JsMap.has (rectangles c) (d_id data) = false ->
  Rectangle.getHitPart
    (mkRect data
       (u * (canvas_width c / scale (transform c) - 200))
       (v * (canvas_height c / scale (transform c) - 120)) 200 120) x y
  = Some part ->
  hitTest (snd (addRectangle u v data c)) x y
  = Some (mkHit (length (heap c))
            (mkRect data
               (u * (canvas_width c / scale (transform c) - 200))
               (v * (canvas_height c / scale (transform c) - 120)) 200 120)
            part).
Proof.
  intros Hno Hpart. unfold hitTest, addRectangle, Rectangle.id. simpl.
  rewrite JsMap_set_absent by done.
  unfold JsMap.values. rewrite map_app, rev_app_distr. simpl.
  apply hitTest_from_first; [|done].
  by rewrite lookup_app_r, Nat.sub_diag.
Qed.

Lemma addRectangle_on_top_witness :
  hitTest
    (snd (addRectangle (1 # 2) (1 # 2) (mkData "z" "Z" []) linkedChart))
    400 300
  = Some (mkHit 2
            (mkRect (mkData "z" "Z" []) ((1 # 2) * (800 / 1 - 200))
               ((1 # 2) * (600 / 1 - 120)) 200 120)
            Inside).
Proof.
  apply (addRectangle_on_top (1 # 2) (1 # 2) (mkData "z" "Z" []) linkedChart
           400 300 Inside); reflexivity.
Defined.

(** X4.  [updateRectangle] returns [false] and changes nothing when the id
    is not in the map; otherwise it never moves or resizes anything: every
    object keeps its position and size, and only the object bound to the id
    gets new data.  Applying the same update twice is the same as applying
    it once. *)
Theorem updateRectangle_spec (id : string) (data : RectData) (c : Chart) :
  (JsMap.get (rectangles c) id = None ->
   updateRectangle id data c = (false, c))
  /\ (forall a r,
        heap c !! a = Some r ->
        exists r',
          heap (snd (updateRectangle id data c)) !! a = Some r'
          /\ r_x r' = r_x r /\ r_y r' = r_y r
          /\ r_width r' = r_width r /\ r_height r' = r_height r
          /\ (JsMap.get (rectangles c) id <> Some a -> r' = r))
  /\ updateRectangle id data (snd (updateRectangle id data c))
     = updateRectangle id data c.
Proof.
  unfold updateRectangle. repeat split.
  - by intros ->.
  - intros a r Hr. destruct (JsMap.get (rectangles c) id) as [a'|]; simpl.
    + rewrite list_lookup_alter. destruct (decide (a' = a)) as [->|Hne].
      * rewrite Hr. simpl. eexists. repeat split; try done.
      * exists r. repeat split; done.
    + exists r. repeat split; done.
  - destruct (JsMap.get (rectangles c) id) as [a'|] eqn:Hget; simpl.
    + rewrite Hget. f_equal. destruct c. simpl. f_equal.
      rewrite list_alter_alter_eq. by apply list_alter_ext.
    + by rewrite Hget.
Qed.

(** ** Connections *)

(** X5.  [addConnection] with an id the map does not hold appends the
    connection to the list [getConnections] returns, lists it for the
    rectangle of either endpoint, and [removeConnection] with that id
    then returns [true] and restores the chart. *)
Theorem addConnection_removeConnection (uuid : string) (a b : Endpoint)
  (c : Chart) :
  JsMap.has (connections c) uuid = false ->
  fst (addConnection uuid a b c) = uuid
  /\ getConnections (snd (addConnection uuid a b c))
     = getConnections c ++ [mkConnection uuid a b]
  /\ mkConnection uuid a b
     ∈ getConnectionsForRect (snd (addConnection uuid a b c)) (rectId a)
  /\ mkConnection uuid a b
     ∈ getConnectionsForRect (snd (addConnection uuid a b c)) (rectId b)
  /\ removeConnection uuid (snd (addConnection uuid a b c)) = (true, c).
Proof.
  intros Hno.
  assert (getConnections (snd (addConnection uuid a b c))
          = getConnections c ++ [mkConnection uuid a b]) as Hall.
  { unfold getConnections, addConnection, JsMap.values. simpl.
    by rewrite JsMap_set_absent, map_app. }
  split; [done|]. split; [exact Hall|].
  unfold getConnectionsForRect. rewrite Hall.
  split; [|split].
  - apply list_elem_of_filter. split; [by left|].
    apply elem_of_app. right. by left.
  - apply list_elem_of_filter. split; [by right|].
    apply elem_of_app. right. by left.
  - unfold removeConnection, addConnection, JsMap.delete, JsMap.has. simpl.
    rewrite JsMap_get_set_eq, JsMap_remove_set_absent by done.
    by destruct c.
Qed.

Lemma addConnection_removeConnection_witness :
  removeConnection "k2"
    (snd (addConnection "k2" (mkEndpoint "y" None) (mkEndpoint "x" None)
            linkedChart))
  = (true, linkedChart).
Proof.
  apply (addConnection_removeConnection "k2" (mkEndpoint "y" None)
           (mkEndpoint "x" None) linkedChart).
  reflexivity.
Defined.

(** X6.  [getConnectionsForRect] returns exactly the connections one of
    whose sides names the rectangle, whatever entry that side names, in
    the order of [getConnections]; [removeConnection] on an id the map does
    not hold returns [false] and changes nothing. *)
Theorem getConnectionsForRect_spec (c : Chart) (id : string) :
  (forall k,
     k ∈ getConnectionsForRect c id <->
     k ∈ getConnections c /\ (rectId (sideA k) = id \/ rectId (sideB k) = id))
  /\ getConnectionsForRect c id `sublist_of` getConnections c
  /\ (forall cid, JsMap.has (connections c) cid = false ->
        removeConnection cid c = (false, c)).
Proof.
  split; [|split].
  - intros k. unfold getConnectionsForRect. rewrite list_elem_of_filter.
    tauto.
  - apply sublist_filter.
  - intros cid Hno. unfold removeConnection, JsMap.delete.
    rewrite Hno, JsMap_remove_absent by done.
    by rewrite set_connections_same.
Qed.

Lemma updateRectangle_spec_witness :
  updateRectangle "q" sampleData linkedChart = (false, linkedChart)
  /\ updateRectangle "x" sampleData
       (snd (updateRectangle "x" sampleData linkedChart))
     = updateRectangle "x" sampleData linkedChart.
Proof.
  destruct (updateRectangle_spec "q" sampleData linkedChart) as (H & _).
  destruct (updateRectangle_spec "x" sampleData linkedChart) as (_ & _ & H').
  split; [apply H; reflexivity|exact H'].
Defined.

Lemma getConnectionsForRect_spec_witness :
  mkConnection "k1" (mkEndpoint "x" (Some "e1")) (mkEndpoint "y" (Some "e2"))
  ∈ getConnectionsForRect linkedChart "y"
  /\ removeConnection "k9" linkedChart = (false, linkedChart).
Proof.
  destruct (getConnectionsForRect_spec linkedChart "y") as (H & _ & H').
  split.
  - apply H. split; [by left|by right].
  - apply H'. reflexivity.
Defined.

(** ** Hit testing across the chart *)



Lemma elem_of_rev_iff {A : Type} (l : list A) (x : A) : x ∈ rev l <-> x ∈ l.
Proof. rewrite !list_elem_of_In. symmetry. apply in_rev. Qed.

Lemma hitTest_from_spec h addrs x y :
  match hitTest_from h addrs x y with
  | Some hit =>
      h !! h_rect hit = Some (h_obj hit)
      /\ Rectangle.getHitPart (h_obj hit) x y = Some (h_part hit)
      /\ exists before after,
           addrs = before ++ h_rect hit :: after
           /\ forall a r, a ∈ before -> h !! a = Some r ->
                          Rectangle.getHitPart r x y = None
  | None =>
      forall a r, a ∈ addrs -> h !! a = Some r ->
                  Rectangle.getHitPart r x y = None
  end.
Proof.
  induction addrs as [|a rest IH]; simpl.
  - by intros a r ?%elem_of_nil.
  - destruct (h !! a) as [rect|] eqn:Ha.
    + destruct (Rectangle.getHitPart rect x y) as [part|] eqn:Hp.
      * simpl. repeat split; try done.
        exists [], rest. split; [done|]. by intros a' r ?%elem_of_nil.
      * destruct (hitTest_from h rest x y) as [hit|].
        -- destruct IH as (H1 & H2 & before & after & -> & Hb).
           repeat split; try done.
           exists (a :: before), after. split; [done|].
           intros a' r [->|Hin]%elem_of_cons Hr; [|by eapply Hb].
           rewrite Ha in Hr. by injection Hr as <-.
        -- intros a' r [->|Hin]%elem_of_cons Hr; [|by eapply IH].
           rewrite Ha in Hr. by injection Hr as <-.
    + destruct (hitTest_from h rest x y) as [hit|].
      * destruct IH as (H1 & H2 & before & after & -> & Hb).
        repeat split; try done.
        exists (a :: before), after. split; [done|].
        intros a' r [->|Hin]%elem_of_cons Hr; [|by eapply Hb].
        by rewrite Ha in Hr.
      * intros a' r [->|Hin]%elem_of_cons Hr; [|by eapply IH].
        by rewrite Ha in Hr.
Qed.

(** X8.  [hitTest] attributes a point to the most recently inserted
    rectangle that it touches: the rectangle returned is in the map and
    touched at the part returned, and no rectangle inserted after it is
    touched.  It returns [null] only if no rectangle of the map is
    touched. *)
Theorem hitTest_topmost (c : Chart) (x y : Q) :
  match hitTest c x y with
  | Some hit =>
      heap c !! h_rect hit = Some (h_obj hit)
      /\ Rectangle.getHitPart (h_obj hit) x y = Some (h_part hit)
      /\ exists below above,
           JsMap.values (rectangles c) = below ++ h_rect hit :: above
           /\ forall a r, a ∈ above -> heap c !! a = Some r ->
                          Rectangle.getHitPart r x y = None
  | None =>
      forall k r, lookupRectangle c k = Some r ->
                  Rectangle.getHitPart r x y = None
  end.
Proof.
  unfold hitTest.
  pose proof (hitTest_from_spec (heap c)
                (rev (JsMap.values (rectangles c))) x y) as H.
  destruct (hitTest_from _ _ x y) as [hit|].
  - destruct H as (H1 & H2 & before & after & Hrev & Hb).
    repeat split; try done.
    exists (rev after), (rev before). split.
    + apply (f_equal (@rev nat)) in Hrev.
      rewrite rev_involutive, rev_app_distr in Hrev. simpl in Hrev.
      by rewrite <- app_assoc in Hrev.
    + intros a r Hin. apply Hb. exact (proj1 (elem_of_rev_iff _ _) Hin).
  - intros k r Hlook. unfold lookupRectangle in Hlook.
    destruct (JsMap.get (rectangles c) k) as [a|] eqn:Hget; [|done].
    simpl in Hlook. apply (H a); [|done].
    apply (proj2 (elem_of_rev_iff _ _)). clear -Hget.
    induction (rectangles c) as [|[k' a'] m IH]; simpl in *; [done|].
    destruct (decide (k = k')).
    + injection Hget as ->. by left.
    + right. by apply IH.
Qed.

(** ** Routing a connection *)


(** ** Pointer-up and hovering *)

(** X11.  Pointer-up forgets the pointer and nothing else of the view:
    once fewer than two pointers remain no pinch is set, and once none
    remains no gesture of any kind is set, however many had piled up.  The
    transform and the store are not touched. *)
Theorem handlePointerUp_clears (c : Chart) (e : PointerEvent) :
  pointers (handlePointerUp c e) = JsMap.remove (pointers c) (pointerId e)
  /\ ((length (pointers (handlePointerUp c e)) < 2)%nat ->
      pinch (handlePointerUp c e) = None)
  /\ (pointers (handlePointerUp c e) = [] -> idle (handlePointerUp c e))
  /\ transform (handlePointerUp c e) = transform c
  /\ heap (handlePointerUp c e) = heap c.
Proof.
  destruct c as [cw ch cur hp rs tr ps cs dg rz pn pc].
  unfold handlePointerUp, JsMap.size, JsMap.delete, idle. simpl.
  destruct (JsMap.remove ps (pointerId e)) as [|q [|q' rest]] eqn:Hl; simpl.
  - match goal with |- context [updateCursor ?c' ?sp] =>
      destruct (updateCursor_gestures c' sp)
        as (Hp' & Hq' & Ha' & Ht' & Hh' & _) end.
    rewrite Hp', Hq', Ha', Ht', Hh'. by repeat split.
  - by repeat split.
  - repeat split; try done. intros; lia.
Qed.

Lemma handlePointerUp_clears_witness :
  idle (handlePointerUp
          (run hypotQ sampleChart
             [PointerDown (mkPointerEvent 1 400 300);
              PointerDown (mkPointerEvent 2 403 304);
              PointerUp (mkPointerEvent 1 400 300)])
          (mkPointerEvent 2 403 304)).
Proof.
  destruct (handlePointerUp_clears
              (run hypotQ sampleChart
                 [PointerDown (mkPointerEvent 1 400 300);
                  PointerDown (mkPointerEvent 2 403 304);
                  PointerUp (mkPointerEvent 1 400 300)])
              (mkPointerEvent 2 403 304)) as (_ & _ & H & _).
  apply H. reflexivity.
Defined.

Lemma hover_during_gesture (hypot : Q -> Q -> Q) (c : Chart)
  (e : PointerEvent) :
  JsMap.has (pointers c) (pointerId e) = false ->
  activeGestures c <> 0%nat ->
  handlePointerMove hypot c e = c.
Proof.
  intros Hno. unfold handlePointerMove. rewrite Hno.
  destruct c as [cw ch cur hp rs tr ps cs dg rz pn pc].
  unfold updateCursor, activeGestures. simpl.
  by destruct pc, pn, rz, dg.
Qed.

(** X12.  A pointer-move from a pointer that is not down (hovering)
    changes nothing but the cursor style; and while any gesture is active
    it does not change that either. *)
Theorem hover_only_cursor (hypot : Q -> Q -> Q) (c : Chart)
  (e : PointerEvent) :
  JsMap.has (pointers c) (pointerId e) = false ->
  (exists s, handlePointerMove hypot c e = set_cursor c s)
  /\ (activeGestures c <> 0%nat -> handlePointerMove hypot c e = c).
Proof.
  intros Hno. split; [|by apply hover_during_gesture].
  unfold handlePointerMove. rewrite Hno.
  destruct c as [cw ch cur hp rs tr ps cs dg rz pn pc].
  unfold updateCursor. simpl.
  destruct pc, pn, rz, dg; try by exists cur.
  match goal with |- context [hitTest ?a ?x ?y] =>
    destruct (hitTest a x y) end; by eexists.
Qed.

Lemma hover_only_cursor_witness :
  exists s,
    handlePointerMove hypotQ sampleChart (mkPointerEvent 1 300 300)
    = set_cursor sampleChart s.
Proof.
  apply (hover_only_cursor hypotQ sampleChart (mkPointerEvent 1 300 300)).
  reflexivity.
Defined.

(** ** What events and host calls preserve *)

Lemma sameEntities_refl c : sameEntities c c.
Proof. by repeat split. Qed.

Lemma sameEntities_trans c1 c2 c3 :
  sameEntities c1 c2 -> sameEntities c2 c3 -> sameEntities c1 c3.
Proof.
  intros (A1 & A2 & A3 & A4 & A5 & A6) (B1 & B2 & B3 & B4 & B5 & B6).
  repeat split; congruence.
Qed.

Lemma sameEntities_updateCursor c sp : sameEntities c (updateCursor c sp).
Proof.
  destruct c as [cw ch cur hp rs tr ps cs dg rz pn pc].
  unfold updateCursor. simpl.
  destruct pc, pn, rz, dg; try apply sameEntities_refl.
  match goal with |- context [hitTest ?a ?x ?y] =>
    destruct (hitTest a x y) end; by repeat split.
Qed.

Lemma alter_keeps_data (f : Rectangle -> Rectangle) (h : list Rectangle)
  (a : nat) :
  (forall r, r_data (f r) = r_data r) ->
  forall a' : nat, r_data <$> alter f a h !! a' = r_data <$> h !! a'.
Proof.
  intros Hf a'. rewrite list_lookup_alter.
  destruct (decide (a = a')) as [->|]; [|done].
  destruct (h !! a'); simpl; [|done]. by rewrite Hf.
Qed.

Lemma sameEntities_singleMove c sp : sameEntities c (singleMove c sp).
Proof.
  destruct c as [cw ch cur hp rs tr ps cs dg rz pn pc].
  unfold singleMove. simpl.
  destruct rz as [g|]; [|destruct dg as [d|]; [|destruct pn]];
    repeat split; simpl; try done.
  - by rewrite length_alter.
  - apply alter_keeps_data. intros r. apply resizeRectangle_spec.
  - by rewrite length_alter.
  - by apply alter_keeps_data.
Qed.

Section Preservation.
Variable hypot : Q -> Q -> Q.

Lemma sameEntities_dispatch c ev : sameEntities c (dispatch hypot c ev).
Proof.
  destruct ev as [e|e|e|e|e]; simpl.
  - destruct c as [cw ch cur hp rs tr ps cs dg rz pn pc].
    unfold handlePointerDown. simpl.
    destruct (JsMap.values _) as [|p0 [|p1 [|p2 rest]]]; simpl;
      try (by repeat split);
      match goal with |- context [hitTest ?a ?x ?y] =>
        destruct (hitTest a x y) as [[a' rect part]|] end;
      [destruct part| | destruct part| | destruct part|];
      by repeat split.
  - unfold handlePointerMove.
    destruct (JsMap.has (pointers c) (pointerId e));
      [|apply sameEntities_updateCursor].
    simpl. set (c1 := set_pointers c _).
    assert (sameEntities c c1) as H1 by by repeat split.
    eapply sameEntities_trans; [exact H1|].
    destruct (pinch c) as [p|];
      [destruct (JsMap.values _) as [|p0 [|p1 [|p2 rest]]]|];
      try apply sameEntities_singleMove.
    by repeat split.
  - set (c' := handlePointerUp c e).
    destruct c as [cw ch cur hp rs tr ps cs dg rz pn pc].
    subst c'. unfold handlePointerUp, JsMap.size, JsMap.delete. simpl.
    destruct (JsMap.remove ps (pointerId e)) as [|q [|q' rest]]; simpl;
      try (by repeat split).
    eapply sameEntities_trans; [|apply sameEntities_updateCursor].
    by repeat split.
  - set (c' := handlePointerUp c e).
    destruct c as [cw ch cur hp rs tr ps cs dg rz pn pc].
    subst c'. unfold handlePointerUp, JsMap.size, JsMap.delete. simpl.
    destruct (JsMap.remove ps (pointerId e)) as [|q [|q' rest]]; simpl;
      try (by repeat split).
    eapply sameEntities_trans; [|apply sameEntities_updateCursor].
    by repeat split.
  - by repeat split.
Qed.

Lemma sameEntities_run evs : forall c, sameEntities c (run hypot c evs).
Proof.
  induction evs as [|ev evs IH]; intros c; [apply sameEntities_refl|].
  unfold run. simpl. eapply sameEntities_trans; [|apply IH].
  apply sameEntities_dispatch.
Qed.

Lemma chartInv_sameEntities c c' :
  sameEntities c c' -> chartInv c -> chartInv c'.
Proof.
  intros (E1 & E2 & _ & _ & E5 & _) (Hwf & Hr & Hc).
  unfold chartInv, wf_chart. by rewrite E1, E2, E5.
Qed.

Lemma chartInv_perform c k : chartInv c -> chartInv (perform c k).
Proof.
  intros (Hwf & Hr & Hc). destruct k as [u v data|id|id data|uuid a b|id].
  - split; [by apply wf_addRectangle|]. split; [|done].
    simpl. by apply JsMap_NoDup_set.
  - split; [|split; [by apply JsMap_NoDup_remove|done]].
    intros k a. simpl. destruct (decide (id = k)) as [->|Hne].
    + by rewrite JsMap_get_remove.
    + rewrite JsMap_get_remove_ne by done. apply Hwf.
  - unfold perform, updateRectangle.
    destruct (JsMap.get (rectangles c) id); [|done].
    split; [|done]. intros k a'. simpl. rewrite length_alter. apply Hwf.
  - split; [done|]. split; [done|]. simpl. by apply JsMap_NoDup_set.
  - split; [done|]. split; [done|]. simpl. by apply JsMap_NoDup_remove.
Qed.

End Preservation.

(** X13.  Input events never add, remove or rebind an entity or a
    connection and never change the data of a rectangle: after any
    sequence of pointer and wheel events the two maps, the canvas size and
    every rectangle's data are what they were. *)
Theorem events_keep_entities (hypot : Q -> Q -> Q) (c : Chart)
  (evs : list Event) :
  rectangles (run hypot c evs) = rectangles c
  /\ connections (run hypot c evs) = connections c
  /\ getConnections (run hypot c evs) = getConnections c
  /\ forall k,
       r_data <$> lookupRectangle (run hypot c evs) k
       = r_data <$> lookupRectangle c k.
Proof.
  destruct (sameEntities_run hypot evs c) as (E1 & E2 & _ & _ & _ & E6).
  repeat split; try done.
  - unfold getConnections. by rewrite E2.
  - intros k. unfold lookupRectangle. rewrite E1.
    destruct (JsMap.get (rectangles c) k); [apply E6|done].
Qed.

(** X14.  In every chart reached from a new one by host calls (add,
    remove, update, connect, disconnect) and input events in any
    interleaving, every address bound in the rectangle map is live in the
    store and each map has one binding per key. *)
Theorem session_invariant (hypot : Q -> Q -> Q) (w h : Q)
  (steps : list Step) :
  chartInv (session hypot (newChart w h) steps).
Proof.
  assert (forall c, chartInv c -> chartInv (session hypot c steps)) as H.
  { induction steps as [|s steps IH]; intros c Hc; [done|].
    unfold session. simpl. apply IH. destruct s as [k|ev]; simpl.
    - by apply chartInv_perform.
    - eapply chartInv_sameEntities; [apply sameEntities_dispatch|done]. }
  apply H. split; [apply wf_newChart|]. split; constructor.
Qed.

(** ** Dragging and panning *)

Section DragPan.
Variable hypot : Q -> Q -> Q.

Lemma move_tracked c pid sp e :
  pointers c = [(pid, sp)] ->
  pointerId e = pid ->
  handlePointerMove hypot c e
  = singleMove
      (set_pointers c [(pid, mkPoint (clientX e) (clientY e))])
      (mkPoint (clientX e) (clientY e)).
Proof.
  destruct c as [cw ch cur hp rs tr ps cs dg rz pn pc]. simpl.
  intros -> Hpid. unfold handlePointerMove, JsMap.has. simpl.
  rewrite !decide_True by done. simpl. rewrite Hpid. by destruct pc.
Qed.

Lemma move_untracked c pid sp e :
  pointers c = [(pid, sp)] ->
  pointerId e <> pid ->
  activeGestures c <> 0%nat ->
  handlePointerMove hypot c e = c.
Proof.
  intros Hp Hne Hact. apply hover_during_gesture; [|done].
  unfold JsMap.has. rewrite Hp. simpl. by rewrite decide_False.
Qed.

Lemma run_moves_snoc c moves e :
  run hypot c (map PointerMove (moves ++ [e]))
  = handlePointerMove hypot (run hypot c (map PointerMove moves)) e.
Proof. unfold run. by rewrite map_app, foldl_app. Qed.

Lemma drag_start c0 e0 d :
  idle c0 ->
  draggingRect (handlePointerDown hypot c0 e0) = Some d ->
  dr_start d = mkPoint (clientX e0) (clientY e0)
  /\ draggingFrom d (pointerId e0) c0 (handlePointerDown hypot c0 e0).
Proof.
  destruct c0 as [cw ch cur hp rs tr ps cs dg rz pn pc].
  unfold idle, activeGestures. simpl. intros [-> Hact].
  destruct dg; [simpl in Hact; lia|]. destruct rz; [simpl in Hact; lia|].
  clear Hact. unfold handlePointerDown, hitTest. simpl.
  match goal with |- context [hitTest_from ?h ?l ?x ?y] =>
    destruct (hitTest_from h l x y) as [[a rect part]|] eqn:Hhit end;
    [|done].
  apply hitTest_from_live in Hhit. simpl in Hhit.
  destruct part; simpl; try done. intros [= <-]. simpl.
  split; [done|]. unfold draggingFrom. simpl.
  repeat split; try done; [by eexists|].
  exists rect, rect. by repeat split.
Qed.

Lemma drag_move d pid c0 c e :
  draggingFrom d pid c0 c ->
  draggingFrom d pid c0 (handlePointerMove hypot c e)
  /\ (pointerId e = pid ->
      exists r0,
        heap c0 !! dr_rect d = Some r0
        /\ heap (handlePointerMove hypot c e) !! dr_rect d
           = Some (mkRect (r_data r0)
                     (r_x r0 + (clientX e - p_x (dr_start d))
                               / scale (transform c0))
                     (r_y r0 + (clientY e - p_y (dr_start d))
                               / scale (transform c0))
                     (r_width r0) (r_height r0))).
Proof.
  intros (Hd & Hrz & [sp Hp] & Ht & Hoth & r0 & r & Hr0 & Hr & Hinit
          & Hdat & Hw & Hh).
  destruct (decide (pointerId e = pid)) as [Hpid|Hpid].
  - rewrite (move_tracked c pid sp e Hp Hpid).
    destruct c as [cw ch cur hp rs tr ps cs dg rz pn pc]. simpl in *.
    subst dg rz ps tr. unfold singleMove. simpl.
    assert (alter
              (fun rect =>
                 mkRect (r_data rect)
                   (p_x (dr_initPos d)
                    + (clientX e - p_x (dr_start d)) / scale (transform c0))
                   (p_y (dr_initPos d)
                    + (clientY e - p_y (dr_start d)) / scale (transform c0))
                   (r_width rect) (r_height rect))
              (dr_rect d) hp !! dr_rect d
            = Some (mkRect (r_data r0)
                      (r_x r0 + (clientX e - p_x (dr_start d))
                                / scale (transform c0))
                      (r_y r0 + (clientY e - p_y (dr_start d))
                                / scale (transform c0))
                      (r_width r0) (r_height r0))) as Hnew.
    { rewrite list_lookup_alter_eq, Hr. simpl.
      by rewrite Hinit, Hdat, Hw, Hh. }
    split.
    + unfold draggingFrom. simpl. repeat split; try done; [by eexists| |].
      * intros a Ha. rewrite list_lookup_alter_ne by done. by apply Hoth.
      * exists r0. eexists. split; [done|]. split; [exact Hnew|].
        by repeat split.
    + intros _. by exists r0.
  - rewrite (move_untracked c pid sp e Hp Hpid).
    + split; [|done]. unfold draggingFrom.
      repeat split; try done; [by eexists|]. by exists r0, r.
    + unfold activeGestures. rewrite Hd. simpl. lia.
Qed.

Lemma drag_run d pid c0 moves : forall c,
  draggingFrom d pid c0 c ->
  draggingFrom d pid c0 (run hypot c (map PointerMove moves)).
Proof.
  induction moves as [|e moves IH]; intros c Hc; [done|].
  unfold run in *. simpl. apply IH. by apply drag_move.
Qed.

Lemma pan_start c0 e0 pn :
  idle c0 ->
  panning (handlePointerDown hypot c0 e0) = Some pn ->
  pn = mkPan (mkPoint (clientX e0) (clientY e0)) (transform c0)
  /\ panningFrom pn (pointerId e0) c0 (handlePointerDown hypot c0 e0).
Proof.
  destruct c0 as [cw ch cur hp rs tr ps cs dg rz pn0 pc].
  unfold idle, activeGestures. simpl. intros [-> Hact].
  destruct dg; [simpl in Hact; lia|]. destruct rz; [simpl in Hact; lia|].
  destruct pn0; [simpl in Hact; lia|].
  clear Hact. unfold handlePointerDown. simpl.
  match goal with |- context [hitTest ?a ?x ?y] =>
    destruct (hitTest a x y) as [[a' rect part]|] end;
    [destruct part; simpl; done|].
  simpl. intros [= <-]. split; [done|].
  unfold panningFrom. simpl. repeat split; try done. by eexists.
Qed.

Lemma pan_move pn pid c0 c e :
  panningFrom pn pid c0 c ->
  panningFrom pn pid c0 (handlePointerMove hypot c e)
  /\ (pointerId e = pid ->
      transform (handlePointerMove hypot c e)
      = mkTransform (scale (transform c0))
          (translateX (pn_initTrans pn) + (clientX e - p_x (pn_start pn)))
          (translateY (pn_initTrans pn) + (clientY e - p_y (pn_start pn)))).
Proof.
  intros (Hpn & Hrz & Hdg & [sp Hp] & Hs & Hh).
  destruct (decide (pointerId e = pid)) as [Hpid|Hpid].
  - rewrite (move_tracked c pid sp e Hp Hpid).
    destruct c as [cw ch cur hp rs tr ps cs dg rz pn0 pc]. simpl in *.
    subst dg rz ps pn0. unfold singleMove. simpl. rewrite Hs. split.
    + unfold panningFrom. simpl. repeat split; try done. by eexists.
    + done.
  - rewrite (move_untracked c pid sp e Hp Hpid).
    + split; [|done]. unfold panningFrom.
      repeat split; try done. by eexists.
    + unfold activeGestures. rewrite Hpn.
      destruct (draggingRect c), (resizingRect c); simpl; lia.
Qed.

Lemma pan_run pn pid c0 moves : forall c,
  panningFrom pn pid c0 c ->
  panningFrom pn pid c0 (run hypot c (map PointerMove moves)).
Proof.
  induction moves as [|e moves IH]; intros c Hc; [done|].
  unfold run in *. simpl. apply IH. by apply pan_move.
Qed.

End DragPan.

(** X15.  A drag opened by pointer-down inside a rectangle of an idle
    chart: after any pointer-moves ending with one of the dragging pointer
    at [(x, y)], the rectangle stands at its initial position plus the
    pointer's total displacement divided by the scale, whatever path the
    pointer took; its size and data, the other rectangles and the
    transform are unchanged. *)
Theorem drag_gesture (hypot : Q -> Q -> Q) (c0 : Chart) (e0 e : PointerEvent)
  (d : DragState) (moves : list PointerEvent) :
  idle c0 ->
  0 < scale (transform c0) ->
  draggingRect (handlePointerDown hypot c0 e0) = Some d ->
  pointerId e = pointerId e0 ->
  exists r0,
    heap c0 !! dr_rect d = Some r0
    /\ heap (run hypot (handlePointerDown hypot c0 e0)
               (map PointerMove (moves ++ [e]))) !! dr_rect d
       = Some (mkRect (r_data r0)
                 (r_x r0 + (clientX e - clientX e0) / scale (transform c0))
                 (r_y r0 + (clientY e - clientY e0) / scale (transform c0))
                 (r_width r0) (r_height r0))
    /\ (forall a, a <> dr_rect d ->
          heap (run hypot (handlePointerDown hypot c0 e0)
                  (map PointerMove (moves ++ [e]))) !! a
          = heap c0 !! a)
    /\ transform (run hypot (handlePointerDown hypot c0 e0)
                    (map PointerMove (moves ++ [e])))
       = transform c0.
Proof.
  intros Hidle Hs Hd Hpid.
  destruct (drag_start hypot c0 e0 d Hidle Hd) as [Hstart Hc1].
  pose proof (drag_run hypot d (pointerId e0) c0 moves _ Hc1) as Hc2.
  rewrite run_moves_snoc.
  destruct (drag_move hypot d (pointerId e0) c0 _ e Hc2) as [Hc3 Hlast].
  destruct (Hlast Hpid) as (r0 & Hr0 & Hr').
  rewrite Hstart in Hr'. simpl in Hr'.
  destruct Hc3 as (_ & _ & _ & Ht & Hoth & _).
  exists r0. by repeat split.
Qed.

Lemma drag_gesture_witness :
  exists r0,
    heap sampleChart !! 0%nat = Some r0
    /\ heap (run hypotQ
               (handlePointerDown hypotQ sampleChart
                  (mkPointerEvent 1 400 300))
               (map PointerMove
                  ([mkPointerEvent 1 10 10; mkPointerEvent 7 0 0]
                   ++ [mkPointerEvent 1 450 280]))) !! 0%nat
       = Some (mkRect (r_data r0)
                 (r_x r0 + (450 - 400) / 1) (r_y r0 + (280 - 300) / 1)
                 (r_width r0) (r_height r0)).
Proof.
  destruct (drag_gesture hypotQ sampleChart (mkPointerEvent 1 400 300)
              (mkPointerEvent 1 450 280)
              (mkDrag 0 (mkPoint 400 300)
                 (mkPoint ((1 # 2) * (800 / 1 - 200))
                          ((1 # 2) * (600 / 1 - 120))))
              [mkPointerEvent 1 10 10; mkPointerEvent 7 0 0])
    as (r0 & H0 & H1 & _).
  - split; reflexivity.
  - reflexivity.
  - reflexivity.
  - reflexivity.
  - exists r0. split; [exact H0|exact H1].
Defined.

(** X16.  A pan opened by pointer-down on empty canvas of an idle chart:
    after any pointer-moves ending with one of the panning pointer, the
    translation is the one the pan started from plus the pointer's total
    screen displacement, whatever path the pointer took; the scale and
    every rectangle are unchanged. *)
Theorem pan_gesture (hypot : Q -> Q -> Q) (c0 : Chart) (e0 e : PointerEvent)
  (pn : PanState) (moves : list PointerEvent) :
  idle c0 ->
  0 < scale (transform c0) ->
  panning (handlePointerDown hypot c0 e0) = Some pn ->
  pointerId e = pointerId e0 ->
  transform (run hypot (handlePointerDown hypot c0 e0)
               (map PointerMove (moves ++ [e])))
  = mkTransform (scale (transform c0))
      (translateX (transform c0) + (clientX e - clientX e0))
      (translateY (transform c0) + (clientY e - clientY e0))
  /\ heap (run hypot (handlePointerDown hypot c0 e0)
             (map PointerMove (moves ++ [e])))
     = heap c0.
Proof.
  intros Hidle Hs Hpn Hpid.
  destruct (pan_start hypot c0 e0 pn Hidle Hpn) as [-> Hc1].
  pose proof (pan_run hypot _ (pointerId e0) c0 moves _ Hc1) as Hc2.
  rewrite run_moves_snoc.
  destruct (pan_move hypot _ (pointerId e0) c0 _ e Hc2) as [Hc3 Hlast].
  specialize (Hlast Hpid). simpl in Hlast.
  destruct Hc3 as (_ & _ & _ & _ & _ & Hh).
  split; [exact Hlast|exact Hh].
Qed.

Lemma pan_gesture_witness :
  transform (run hypotQ
               (handlePointerDown hypotQ sampleChart (mkPointerEvent 1 10 10))
               (map PointerMove ([mkPointerEvent 1 50 50]
                                 ++ [mkPointerEvent 1 40 25])))
  = mkTransform (scale (transform sampleChart))
      (translateX (transform sampleChart) + (40 - 10))
      (translateY (transform sampleChart) + (25 - 10)).
Proof.
  apply (pan_gesture hypotQ sampleChart (mkPointerEvent 1 10 10)
           (mkPointerEvent 1 40 25)
           (mkPan (mkPoint 10 10) (mkTransform 1 0 0))
           [mkPointerEvent 1 50 50]); try reflexivity.
  split; reflexivity.
Defined.

(** ** Drawing *)

Lemma omap_join_nil {A B : Type} (g : A -> option B) (ls : list (list A)) :
  (forall l, l ∈ ls -> omap g l = []) -> omap g (mjoin ls) = [].
Proof.
  induction ls as [|l ls IH]; intros H; simpl; [done|].
  rewrite omap_app, (H l) by by left. simpl. apply IH.
  intros l' Hl'. apply H. by right.
Qed.

Lemma filledBoxes_app l1 l2 :
  filledBoxes (l1 ++ l2) = filledBoxes l1 ++ filledBoxes l2.
Proof. apply omap_app. Qed.

Lemma filledBoxes_drawRectangle c r :
  filledBoxes (drawRectangle c r) = [boxOf r].
Proof.
  unfold filledBoxes, drawRectangle. rewrite omap_app. simpl.
  rewrite omap_join_nil; [done|].
  by intros l (i & e & -> & _)%elem_of_lookup_imap_1.
Qed.

Lemma curveEnds_drawRectangle c r : curveEnds (drawRectangle c r) = [].
Proof.
  unfold curveEnds, drawRectangle. rewrite omap_app. simpl.
  apply omap_join_nil.
  by intros l (i & e & -> & _)%elem_of_lookup_imap_1.
Qed.

Lemma filledBoxes_strokeConnections c : filledBoxes (strokeConnections c) = [].
Proof.
  unfold filledBoxes, strokeConnections. rewrite !omap_app. simpl.
  rewrite omap_join_nil; [done|].
  by intros l (b & -> & _)%list_elem_of_fmap_1.
Qed.

Lemma curveEnds_strokeConnections c :
  curveEnds (strokeConnections c) = map b_to (drawConnections c).
Proof.
  unfold curveEnds, strokeConnections.
  induction (drawConnections c) as [|b bs IH]; simpl in *; [done|].
  rewrite IH. by destruct (b_to b).
Qed.

Lemma rectangleObjects_length c :
  chartInv c -> length (rectangleObjects c) = JsMap.size (rectangles c).
Proof.
  intros (Hwf & Hnd & _). unfold rectangleObjects, JsMap.size, JsMap.values.
  unfold wf_chart in Hwf. revert Hwf Hnd.
  generalize (heap c) as h. induction (rectangles c) as [|[k a] m IH];
    intros h Hwf Hnd; simpl; [done|].
  apply NoDup_cons in Hnd as [Hk Hnd].
  destruct (lookup_lt_is_Some_2 h a) as [r Hr].
  { apply (Hwf k). simpl. by rewrite decide_True. }
  rewrite Hr. simpl. f_equal. apply IH; [|done].
  intros k' a' Hget. apply (Hwf k'). simpl.
  rewrite decide_False; [done|]. intros ->.
  apply Hk. change (k ∈ map fst m).
  apply JsMap_has_elem. unfold JsMap.has. by rewrite Hget.
Qed.

(** X17.  [draw] resets and clears the canvas, installs the view
    transform, then strokes one curve per connection and only afterwards
    fills the rectangles, one box per rectangle of the map in insertion
    order: connections lie behind rectangles, and the rectangle inserted
    last, the one [hitTest] tries first, is painted on top. *)
Theorem draw_paint_order (c : Chart) :
  chartInv c ->
  exists curves boxes,
    draw c
    = [SetTransform 1 0 0 1 0 0;
       ClearRect 0 0 (canvas_width c) (canvas_height c);
       SetTransform (scale (transform c)) 0 0 (scale (transform c))
         (translateX (transform c)) (translateY (transform c))]
      ++ curves ++ boxes
    /\ filledBoxes curves = []
    /\ curveEnds curves = map b_to (drawConnections c)
    /\ length (curveEnds curves) = length (getConnections c)
    /\ curveEnds boxes = []
    /\ filledBoxes boxes = map boxOf (rectangleObjects c)
    /\ length (filledBoxes boxes) = JsMap.size (rectangles c).
Proof.
  intros Hinv.
  exists (strokeConnections c), (mjoin (map (drawRectangle c)
                                          (rectangleObjects c))).
  assert (filledBoxes (mjoin (map (drawRectangle c) (rectangleObjects c)))
          = map boxOf (rectangleObjects c)) as Hboxes.
  { induction (rectangleObjects c) as [|r rs IH]; [done|].
    change (filledBoxes
              (drawRectangle c r ++ mjoin (map (drawRectangle c) rs))
            = boxOf r :: map boxOf rs).
    by rewrite filledBoxes_app, filledBoxes_drawRectangle, IH. }
  split; [done|]. split; [apply filledBoxes_strokeConnections|].
  split; [apply curveEnds_strokeConnections|].
  split.
  { rewrite curveEnds_strokeConnections. unfold drawConnections.
    by rewrite !length_map. }
  split.
  { unfold curveEnds. apply omap_join_nil.
    intros l (r & -> & _)%list_elem_of_fmap_1.
    apply curveEnds_drawRectangle. }
  split; [exact Hboxes|].
  by rewrite Hboxes, length_map, rectangleObjects_length.
Qed.

Lemma draw_paint_order_witness :
  exists curves boxes,
    draw linkedChart
    = [SetTransform 1 0 0 1 0 0; ClearRect 0 0 800 600;
       SetTransform 1 0 0 1 0 0] ++ curves ++ boxes
    /\ length (curveEnds curves) = 1%nat
    /\ length (filledBoxes boxes) = 2%nat.
Proof.
  destruct (draw_paint_order linkedChart)
    as (curves & boxes & H1 & _ & _ & H2 & _ & _ & H3).
  - split; [apply wf_addRectangle, wf_addRectangle, wf_newChart|].
    split; compute_done.
  - exists curves, boxes. split; [exact H1|]. split; [exact H2|exact H3].
Defined.

(** X19.  On a rectangle that satisfies the minimum-size floor (as every
    resize step leaves it), every text [drawRectangle] paints is anchored
    between the left and the right padding and at or below the top
    padding, and a full entry line below the anchor still ends above the
    bottom edge.  (The last row ends exactly one padding above the bottom
    edge of a rectangle at its minimum height in exact arithmetic; the
    bound stated leaves that padding as slack.) *)
Theorem drawn_text_inside (c : Chart) (r : Rectangle) (text : string)
  (x y : Q) :
  0 < scale (transform c) ->
  floored (scale (transform c)) r ->
  FillText text x y ∈ drawRectangle c r ->
  (r_x r + RECT_STYLE.padding / scale (transform c) <= x
   /\ x <= r_x r + r_width r - RECT_STYLE.padding / scale (transform c))
  /\ r_y r + RECT_STYLE.padding / scale (transform c) <= y
  /\ y + RECT_STYLE.lineHeight / scale (transform c) <= r_y r + r_height r.
Proof.
  intros Hs [Hw Hh] Hin.
  unfold calculateMinimumHeight in Hh.
  assert (0 < / scale (transform c)) as Hk by by apply Qinv_lt_0_compat.
  unfold RECT_STYLE.padding, RECT_STYLE.lineHeight, RECT_STYLE.minWidth,
    RECT_STYLE.titleFontSize in *.
  set (n := inject_Z (Z.of_nat (length (d_entries (r_data r))))) in *.
  unfold drawRectangle in Hin. apply elem_of_app in Hin as [Hin|Hin].
  - repeat (apply elem_of_cons in Hin as [Heq|Hin]; [try discriminate Heq|]);
      [|by apply elem_of_nil in Hin].
    injection Heq as -> -> ->.
    unfold RECT_STYLE.padding, RECT_STYLE.titleFontSize. rewrite Qdiv2.
    unfold Qdiv in *. set (k := / scale (transform c)) in *.
    assert (0 <= n * (18 * k)) as Hn.
    { apply Qmult_le_0_compat; [|lra]. subst n.
      change 0 with (inject_Z 0). rewrite <- Zle_Qle. lia. }
    repeat split; lra.
  - apply list_elem_of_join in Hin as (l & Hin & Hl).
    apply elem_of_lookup_imap_1 in Hl as (i & e & -> & Hi).
    apply lookup_lt_Some in Hi.
    assert (inject_Z (Z.of_nat i) + 1 <= n) as Hle.
    { subst n. change 1 with (inject_Z 1).
      rewrite <- inject_Z_plus, <- Zle_Qle. lia. }
    assert (0 <= inject_Z (Z.of_nat i)) as Hi0.
    { change 0 with (inject_Z 0). rewrite <- Zle_Qle. lia. }
    unfold RECT_STYLE.padding, RECT_STYLE.lineHeight,
      RECT_STYLE.titleFontSize in Hin.
    unfold Qdiv in *. set (k := / scale (transform c)) in *.
    assert (0 <= (n - (inject_Z (Z.of_nat i) + 1)) * (18 * k)) as Hrow.
    { apply Qmult_le_0_compat; lra. }
    assert (0 <= inject_Z (Z.of_nat i) * (18 * k)) as Hrow0.
    { apply Qmult_le_0_compat; lra. }
    repeat (apply elem_of_cons in Hin as [Heq|Hin];
            [try discriminate Heq|]);
      try (by apply elem_of_nil in Hin);
      injection Heq as -> -> ->; repeat split; lra.
Qed.

Lemma drawn_text_inside_witness :
  r_y defaultRect + RECT_STYLE.padding / scale (transform sampleChart)
  <= entryRowTop defaultRect 1 1.
Proof.
  apply (drawn_text_inside sampleChart defaultRect "y"
           (r_x defaultRect + RECT_STYLE.padding / 1)
           (entryRowTop defaultRect 1 1)).
  - reflexivity.
  - split; vm_compute; discriminate.
  - apply list_elem_of_In. vm_compute.
    repeat (first [left; reflexivity | right]).
Defined.

(** ** Demo data *)

Lemma fair_numbers st st' : numbers st' = numbers st -> fair st -> fair st'.
Proof. unfold fair. by intros ->. Qed.

Lemma floor_scaled (r : Q) (m : Z) :
  0 <= r -> r < 1 -> (0 < m)%Z ->
  (0 <= Qfloor (r * inject_Z m) < m)%Z.
Proof.
  intros H0 H1 Hm.
  assert (0 < inject_Z m) as Hm'.
  { change 0 with (inject_Z 0). by rewrite <- Zlt_Qlt. }
  split.
  - change 0%Z with (Qfloor 0). apply Qfloor_resp_le.
    by apply Qmult_le_0_compat; [|apply Qlt_le_weak].
  - rewrite Zlt_Qlt.
    apply Qle_lt_trans with (r * inject_Z m); [apply Qfloor_le|].
    apply Qlt_le_trans with (1 * inject_Z m);
      [by apply Qmult_lt_compat_r|].
    rewrite Qmult_1_l. apply Qle_refl.
Qed.

Lemma string_length_app (s1 s2 : string) :
  String.length (s1 +:+ s2) = (String.length s1 + String.length s2)%nat.
Proof. induction s1 as [|ch s1 IH]; simpl; [done|]. by rewrite IH. Qed.

Lemma allHex_app (s1 s2 : string) :
  allHex s1 = true -> allHex s2 = true -> allHex (s1 +:+ s2) = true.
Proof.
  intros H1 H2. induction s1 as [|ch s1 IH]; [done|].
  change (allHex (String ch (s1 +:+ s2)) = true).
  cbn [allHex] in *.
  destruct (String.index 0 (String ch EmptyString) hexDigits);
    [auto|discriminate H1].
Qed.

Lemma hexAt_digit (k : Z) :
  (0 <= k < 16)%Z ->
  String.length (hexAt k) = 1%nat /\ allHex (hexAt k) = true.
Proof.
  intros Hk. replace k with (Z.of_nat (Z.to_nat k)) by lia.
  assert (Z.to_nat k < 16)%nat as Hn by lia.
  generalize dependent (Z.to_nat k). intros n Hn.
  do 16 (destruct n as [|n]; [by vm_compute|]). lia.
Qed.

Lemma randomHex_loop_S n s st :
  randomHex_loop (S n) s st
  = randomHex_loop n
      (s +:+ hexAt (Qfloor (numbers st (numbersRead st) * 16)))
      (mkEntropy (numbers st) (uuids st) (S (numbersRead st)) (uuidsRead st)).
Proof. reflexivity. Qed.

Lemma randomHex_loop_spec n : forall s st,
  fair st ->
  String.length (fst (randomHex_loop n s st)) = (String.length s + n)%nat
  /\ (allHex s = true -> allHex (fst (randomHex_loop n s st)) = true)
  /\ numbers (snd (randomHex_loop n s st)) = numbers st.
Proof.
  induction n as [|n IH]; intros s st Hfair.
  - simpl. repeat split; [lia|done].
  - rewrite randomHex_loop_S.
    destruct (Hfair (numbersRead st)) as [H0 H1].
    destruct (hexAt_digit (Qfloor (numbers st (numbersRead st) * 16)))
      as [Hlen Hhex].
    { by apply (floor_scaled _ 16). }
    destruct (IH (s +:+ hexAt (Qfloor (numbers st (numbersRead st) * 16)))
                (mkEntropy (numbers st) (uuids st) (S (numbersRead st))
                   (uuidsRead st)) Hfair) as (IH1 & IH2 & IH3).
    rewrite string_length_app, Hlen in IH1.
    split; [rewrite IH1; lia|]. split; [|exact IH3].
    intros Hs. apply IH2. by apply allHex_app.
Qed.

Lemma randomHex_word (r : Q) st :
  fair st -> 0 <= r -> r < 1 ->
  hexWord (fst (randomHex (6 + Qfloor (r * 11)) st))
  /\ fair (snd (randomHex (6 + Qfloor (r * 11)) st)).
Proof.
  intros Hfair H0 H1. unfold randomHex, hexWord.
  pose proof (floor_scaled r 11 H0 H1 eq_refl) as Hf.
  change (inject_Z 11) with 11 in Hf.
  destruct (randomHex_loop_spec (Z.to_nat (6 + Qfloor (r * 11))) "" st Hfair)
    as (L1 & L2 & L3).
  rewrite L1. change (String.length "") with 0%nat.
  split; [|by apply (fair_numbers st)].
  split; [lia|by apply L2].
Qed.

Lemma generateEntries_S n entries st :
  generateEntries (S n) entries st
  = let st1 := mkEntropy (numbers st) (uuids st) (S (numbersRead st))
                 (S (uuidsRead st)) in
    let h1 := randomHex (6 + Qfloor (numbers st (numbersRead st) * 11)) st1 in
    let st2 := snd h1 in
    let st3 := mkEntropy (numbers st2) (uuids st2) (S (numbersRead st2))
                 (uuidsRead st2) in
    let h2 :=
      randomHex (6 + Qfloor (numbers st2 (numbersRead st2) * 11)) st3 in
    generateEntries n
      (entries ++ [mkEntry (uuids st (uuidsRead st)) (fst h1) (fst h2)])
      (snd h2).
Proof.
  cbn [generateEntries randomUUID random]. cbv zeta.
  cbn [numbers uuids numbersRead uuidsRead].
  destruct (randomHex (6 + Qfloor (numbers st (numbersRead st) * 11)) _)
    as [l st2].
  cbn [fst snd].
  by destruct (randomHex (6 + Qfloor (numbers st2 (numbersRead st2) * 11)) _).
Qed.

Lemma generateEntries_spec n : forall entries st,
  fair st ->
  length (fst (generateEntries n entries st)) = (length entries + n)%nat
  /\ (Forall (fun e => hexWord (e_left e) /\ hexWord (e_right e)) entries ->
      Forall (fun e => hexWord (e_left e) /\ hexWord (e_right e))
        (fst (generateEntries n entries st)))
  /\ fair (snd (generateEntries n entries st)).
Proof.
  induction n as [|n IH]; intros entries st Hfair.
  - simpl. split; [lia|]. by split.
  - rewrite generateEntries_S. cbv zeta.
    set (st1 := mkEntropy (numbers st) (uuids st) (S (numbersRead st))
                  (S (uuidsRead st))).
    assert (fair st1) as Hf1 by done.
    destruct (Hfair (numbersRead st)) as [A0 A1].
    destruct (randomHex_word (numbers st (numbersRead st)) st1 Hf1 A0 A1)
      as [Hl Hf2].
    set (h1 := randomHex _ st1) in *.
    set (st2 := snd h1) in *.
    destruct (Hf2 (numbersRead st2)) as [B0 B1].
    set (st3 := mkEntropy (numbers st2) (uuids st2) (S (numbersRead st2))
                  (uuidsRead st2)).
    assert (fair st3) as Hf3 by done.
    destruct (randomHex_word (numbers st2 (numbersRead st2)) st3 Hf3 B0 B1)
      as [Hr Hf4].
    set (h2 := randomHex _ st3) in *.
    destruct (IH (entries ++ [mkEntry (uuids st (uuidsRead st))
                                (fst h1) (fst h2)]) (snd h2) Hf4)
      as (I1 & I2 & I3).
    rewrite length_app in I1. simpl in I1.
    split; [rewrite I1; lia|]. split; [|exact I3].
    intros Hall. apply I2. apply Forall_app. split; [done|].
    constructor; [|constructor]. by split.
Qed.

Lemma generateDummyData_loop_S n ds st :
  generateDummyData_loop (S n) ds st
  = let st1 := mkEntropy (numbers st) (uuids st) (S (numbersRead st))
                 (uuidsRead st) in
    let h1 := randomHex (6 + Qfloor (numbers st (numbersRead st) * 11)) st1 in
    let st2 := snd h1 in
    let st3 := mkEntropy (numbers st2) (uuids st2) (S (numbersRead st2))
                 (uuidsRead st2) in
    let g :=
      generateEntries
        (Z.to_nat (3 + Qfloor (numbers st2 (numbersRead st2) * 4))) [] st3 in
    let st4 := snd g in
    generateDummyData_loop n
      (ds ++ [mkData (uuids st4 (uuidsRead st4)) (fst h1) (fst g)])
      (mkEntropy (numbers st4) (uuids st4) (numbersRead st4)
         (S (uuidsRead st4))).
Proof.
  cbn [generateDummyData_loop randomUUID random]. cbv zeta.
  cbn [numbers uuids numbersRead uuidsRead].
  destruct (randomHex (6 + Qfloor (numbers st (numbersRead st) * 11)) _)
    as [title st2].
  cbn [fst snd].
  by destruct (generateEntries _ [] _).
Qed.

Lemma generateDummyData_loop_spec n : forall ds st,
  fair st ->
  length (fst (generateDummyData_loop n ds st)) = (length ds + n)%nat
  /\ (Forall (fun d =>
                hexWord (d_title d)
                /\ (3 <= length (d_entries d) <= 6)%nat
                /\ Forall (fun e => hexWord (e_left e) /\ hexWord (e_right e))
                     (d_entries d)) ds ->
      Forall (fun d =>
                hexWord (d_title d)
                /\ (3 <= length (d_entries d) <= 6)%nat
                /\ Forall (fun e => hexWord (e_left e) /\ hexWord (e_right e))
                     (d_entries d))
        (fst (generateDummyData_loop n ds st))).
Proof.
  induction n as [|n IH]; intros ds st Hfair.
  - simpl. split; [lia|done].
  - rewrite generateDummyData_loop_S. cbv zeta.
    set (st1 := mkEntropy (numbers st) (uuids st) (S (numbersRead st))
                  (uuidsRead st)).
    assert (fair st1) as Hf1 by done.
    destruct (Hfair (numbersRead st)) as [A0 A1].
    destruct (randomHex_word (numbers st (numbersRead st)) st1 Hf1 A0 A1)
      as [Ht Hf2].
    set (h1 := randomHex _ st1) in *.
    set (st2 := snd h1) in *.
    destruct (Hf2 (numbersRead st2)) as [B0 B1].
    pose proof (floor_scaled _ 4 B0 B1 eq_refl) as Hcount.
    set (st3 := mkEntropy (numbers st2) (uuids st2) (S (numbersRead st2))
                  (uuidsRead st2)).
    assert (fair st3) as Hf3 by done.
    destruct (generateEntries_spec
                (Z.to_nat (3 + Qfloor (numbers st2 (numbersRead st2) * 4)))
                [] st3 Hf3) as (G1 & G2 & G3).
    set (g := generateEntries _ [] st3) in *.
    set (st4 := snd g) in *.
    destruct (IH (ds ++ [mkData (uuids st4 (uuidsRead st4)) (fst h1) (fst g)])
                (mkEntropy (numbers st4) (uuids st4) (numbersRead st4)
                   (S (uuidsRead st4))) G3) as (I1 & I2).
    rewrite length_app in I1. simpl in I1.
    split; [rewrite I1; lia|].
    intros Hall. apply I2. apply Forall_app. split; [done|].
    constructor; [|done]. simpl. split; [done|].
    change (inject_Z 4) with 4 in Hcount.
    split; [|by apply G2].
    rewrite G1. change (length (@nil RectEntry)) with 0%nat. lia.
Qed.

(** X20.  Fed numbers in [[0, 1)], [generateDummyData(count)] returns
    [count] rectangles, each titled with 6 to 16 hexadecimal digits and
    holding 3 to 6 entries whose two texts are 6 to 16 hexadecimal digits
    each. *)
Theorem generateDummyData_shape (count : Z) (st : Entropy) :
  fair st ->
  length (fst (generateDummyData count st)) = Z.to_nat count
  /\ Forall (fun d =>
               hexWord (d_title d)
               /\ (3 <= length (d_entries d) <= 6)%nat
               /\ Forall (fun e => hexWord (e_left e) /\ hexWord (e_right e))
                    (d_entries d))
       (fst (generateDummyData count st)).
Proof.
  intros Hfair. unfold generateDummyData.
  destruct (generateDummyData_loop_spec (Z.to_nat count) [] st Hfair)
    as [H1 H2].
  split; [exact H1|]. by apply H2.
Qed.

Lemma fair_sampleEntropy : fair sampleEntropy.
Proof.
  intros i.
  change (numbers sampleEntropy i)
    with (inject_Z (Z.of_nat (i mod 4)) / 4).
  pose proof (Nat.mod_upper_bound i 4 ltac:(done)) as Hi.
  assert (0 <= inject_Z (Z.of_nat (i mod 4))
          /\ inject_Z (Z.of_nat (i mod 4)) <= 3) as [H0 H3].
  { change 0 with (inject_Z 0). change 3 with (inject_Z 3).
    rewrite <- !Zle_Qle. lia. }
  set (q := inject_Z (Z.of_nat (i mod 4))) in *.
  split.
  - apply Qle_shift_div_l; lra.
  - apply Qlt_shift_div_r; lra.
Qed.

Lemma generateDummyData_shape_witness :
  length (fst (generateDummyData 5 sampleEntropy)) = 5%nat.
Proof.
  apply (generateDummyData_shape 5 sampleEntropy). apply fair_sampleEntropy.
Defined.

(** ** The pinch as a whole *)

Section PinchGesture.
Variable hypot : Q -> Q -> Q.

Lemma two_values {V : Type} (m : list (Z * V)) :
  length m = 2%nat -> exists q0 q1, JsMap.values m = [q0; q1].
Proof.
  destruct m as [|[k0 q0] [|[k1 q1] [|x m]]]; try done.
  intros _. by exists q0, q1.
Qed.

Lemma pinch_step p c0 c e :
  pinchingFrom p c0 c ->
  JsMap.has (pointers c) (pointerId e) = true ->
  pinchingFrom p c0 (handlePointerMove hypot c e)
  /\ exists q0 q1,
       JsMap.values (pointers (handlePointerMove hypot c e)) = [q0; q1]
       /\ scale (transform (handlePointerMove hypot c e))
          = hypot (p_x q1 - p_x q0) (p_y q1 - p_y q0) / startDist p
            * startScale p.
Proof.
  intros (Hp & Hlen & Hh) Hhas.
  pose proof (JsMap_size_set_present (pointers c) (pointerId e)
                (mkPoint (clientX e) (clientY e)) Hhas) as Hsz.
  unfold JsMap.size in Hsz. rewrite Hlen in Hsz.
  destruct (two_values _ Hsz) as (q0 & q1 & Hv).
  unfold handlePointerMove. rewrite Hhas. simpl. rewrite Hp, Hv.
  unfold pinchMove. simpl. split.
  - unfold pinchingFrom. simpl. by rewrite Hp.
  - by exists q0, q1.
Qed.

Lemma pinch_run p c0 moves : forall c,
  pinchingFrom p c0 c ->
  pinchMoves hypot c moves ->
  pinchingFrom p c0 (run hypot c (map PointerMove moves)).
Proof.
  induction moves as [|e moves IH]; intros c Hc Hm; [done|].
  destruct Hm as (Hhas & Hm).
  unfold run in *. simpl. apply IH; try done.
  by apply pinch_step.
Qed.

Lemma pinchMoves_snoc moves e : forall c,
  pinchMoves hypot c (moves ++ [e]) ->
  pinchMoves hypot c moves
  /\ JsMap.has (pointers (run hypot c (map PointerMove moves))) (pointerId e)
     = true.
Proof.
  induction moves as [|e' moves IH]; intros c; simpl.
  - intros (H1 & _). by split.
  - intros (H1 & H2). destruct (IH _ H2) as (I1 & I2). by repeat split.
Qed.

End PinchGesture.

(** X21.  A pinch in progress with two tracked pointers, through any
    moves of tracked pointers: the scale afterwards depends only on where
    the two pointers are at the end, not on the path; it is the ratio of
    the final to the recorded start distance times the recorded start
    scale.  Bringing the pointers back to their start distance gives the
    start scale again.  No rectangle is touched, whatever other gesture is
    also set.  (The translation is recomputed from the current transform on
    every move and is left unstated: in binary64 it depends on the path.) *)
Theorem pinch_gesture (hypot : Q -> Q -> Q) (c0 : Chart) (p : PinchState)
  (moves : list PointerEvent) (e : PointerEvent) :
  pinch c0 = Some p ->
  length (pointers c0) = 2%nat ->
  0 < startDist p ->
  pinchMoves hypot c0 (moves ++ [e]) ->
  exists q0 q1,
    JsMap.values (pointers (run hypot c0 (map PointerMove (moves ++ [e]))))
    = [q0; q1]
    /\ scale (transform (run hypot c0 (map PointerMove (moves ++ [e]))))
       = hypot (p_x q1 - p_x q0) (p_y q1 - p_y q0) / startDist p
         * startScale p
    /\ (hypot (p_x q1 - p_x q0) (p_y q1 - p_y q0) == startDist p ->
        scale (transform (run hypot c0 (map PointerMove (moves ++ [e]))))
        == startScale p)
    /\ pinch (run hypot c0 (map PointerMove (moves ++ [e]))) = Some p
    /\ heap (run hypot c0 (map PointerMove (moves ++ [e]))) = heap c0.
Proof.
  intros Hp Hlen Hsd Hm.
  destruct (pinchMoves_snoc hypot moves e c0 Hm) as (Hm' & Hhas).
  assert (pinchingFrom p c0 c0) as Hc0 by by repeat split.
  pose proof (pinch_run hypot p c0 moves c0 Hc0 Hm') as Hc1.
  rewrite run_moves_snoc.
  destruct (pinch_step hypot p c0 _ e Hc1 Hhas)
    as ((Hp' & _ & Hh') & q0 & q1 & Hv & Hsc).
  exists q0, q1. split; [exact Hv|]. split; [exact Hsc|].
  split; [|by split].
  intros Hd. rewrite Hsc, Hd. field. lra.
Qed.

Lemma pinch_gesture_witness :
  exists q0 q1,
    JsMap.values
      (pointers
         (run hypotQ
            (run hypotQ sampleChart
               [PointerDown (mkPointerEvent 1 0 0);
                PointerDown (mkPointerEvent 2 3 4)])
            (map PointerMove
               ([mkPointerEvent 2 6 8] ++ [mkPointerEvent 2 0 5]))))
    = [q0; q1]
    /\ scale (transform
                (run hypotQ
                   (run hypotQ sampleChart
                      [PointerDown (mkPointerEvent 1 0 0);
                       PointerDown (mkPointerEvent 2 3 4)])
                   (map PointerMove
                      ([mkPointerEvent 2 6 8] ++ [mkPointerEvent 2 0 5]))))
       = hypotQ (p_x q1 - p_x q0) (p_y q1 - p_y q0) / 5 * 1.
Proof.
  destruct (pinch_gesture hypotQ
              (run hypotQ sampleChart
                 [PointerDown (mkPointerEvent 1 0 0);
                  PointerDown (mkPointerEvent 2 3 4)])
              (mkPinch 5 1 (mkPoint ((0 + 3) / 2) ((0 + 4) / 2)))
              [mkPointerEvent 2 6 8] (mkPointerEvent 2 0 5))
    as (q0 & q1 & H1 & H2 & _); try reflexivity.
  - vm_compute. repeat split.
  - exists q0, q1. split; [exact H1|exact H2].
Defined.

Lemma randomHex_loop_uuids n : forall s st,
  uuids (snd (randomHex_loop n s st)) = uuids st
  /\ uuidsRead (snd (randomHex_loop n s st)) = uuidsRead st.
Proof.
  induction n as [|n IH]; intros s st; [done|].
  rewrite randomHex_loop_S.
  destruct (IH (s +:+ hexAt (Qfloor (numbers st (numbersRead st) * 16)))
              (mkEntropy (numbers st) (uuids st) (S (numbersRead st))
                 (uuidsRead st))) as [H1 H2].
  by rewrite H1, H2.
Qed.

Lemma randomHex_uuids len st :
  uuids (snd (randomHex len st)) = uuids st
  /\ uuidsRead (snd (randomHex len st)) = uuidsRead st.
Proof. apply randomHex_loop_uuids. Qed.

Lemma generateEntries_ids n : forall entries st,
  map e_id (fst (generateEntries n entries st))
  = map e_id entries ++ map (uuids st) (seq (uuidsRead st) n)
  /\ uuids (snd (generateEntries n entries st)) = uuids st
  /\ uuidsRead (snd (generateEntries n entries st)) = (uuidsRead st + n)%nat.
Proof.
  induction n as [|n IH]; intros entries st.
  - simpl. rewrite app_nil_r. repeat split; lia.
  - rewrite generateEntries_S. cbv zeta.
    set (st1 := mkEntropy (numbers st) (uuids st) (S (numbersRead st))
                  (S (uuidsRead st))).
    set (h1 := randomHex _ st1).
    destruct (randomHex_uuids
                (6 + Qfloor (numbers st (numbersRead st) * 11)) st1)
      as [U1 R1].
    fold h1 in U1, R1.
    set (st3 := mkEntropy (numbers (snd h1)) (uuids (snd h1))
                  (S (numbersRead (snd h1))) (uuidsRead (snd h1))).
    set (h2 := randomHex _ st3).
    destruct (randomHex_uuids
                (6 + Qfloor (numbers (snd h1) (numbersRead (snd h1)) * 11))
                st3) as [U2 R2].
    fold h2 in U2, R2.
    destruct (IH (entries ++ [mkEntry (uuids st (uuidsRead st))
                                (fst h1) (fst h2)]) (snd h2))
      as (I1 & I2 & I3).
    rewrite I1, I2, I3, U2, R2. simpl. rewrite U1, R1. simpl.
    rewrite map_app, <- app_assoc. simpl.
    repeat split; try done.
Qed.

Lemma generateDummyData_loop_ids n : forall ds st,
  exists k,
    allIds (fst (generateDummyData_loop n ds st))
    = allIds ds ++ map (uuids st) (seq (uuidsRead st) k).
Proof.
  induction n as [|n IH]; intros ds st.
  - exists 0%nat. simpl. by rewrite app_nil_r.
  - rewrite generateDummyData_loop_S. cbv zeta.
    set (st1 := mkEntropy (numbers st) (uuids st) (S (numbersRead st))
                  (uuidsRead st)).
    set (h1 := randomHex _ st1).
    destruct (randomHex_uuids
                (6 + Qfloor (numbers st (numbersRead st) * 11)) st1)
      as [U1 R1].
    fold h1 in U1, R1. simpl in U1, R1.
    set (st3 := mkEntropy (numbers (snd h1)) (uuids (snd h1))
                  (S (numbersRead (snd h1))) (uuidsRead (snd h1))).
    set (m := Z.to_nat _).
    destruct (generateEntries_ids m [] st3) as (G1 & G2 & G3).
    set (g := generateEntries m [] st3) in *.
    simpl in G1, G2, G3. rewrite U1 in G1, G2. rewrite R1 in G1, G3.
    destruct (IH (ds ++ [mkData (uuids (snd g) (uuidsRead (snd g)))
                           (fst h1) (fst g)])
                (mkEntropy (numbers (snd g)) (uuids (snd g))
                   (numbersRead (snd g)) (S (uuidsRead (snd g)))))
      as [k Hk].
    exists (m + 1 + k)%nat. rewrite Hk. simpl.
    unfold allIds. rewrite map_app, join_app. simpl.
    rewrite app_nil_r, G1, G2, G3, <- !app_assoc. f_equal. f_equal.
    rewrite !seq_app, !map_app. simpl.
    rewrite <- app_assoc. simpl. do 4 f_equal. lia.
Qed.

Lemma NoDup_allIds_ids ds : NoDup (allIds ds) -> NoDup (map d_id ds).
Proof.
  unfold allIds. induction ds as [|d ds IH]; simpl; [constructor|].
  rewrite <- app_assoc. simpl.
  intros (_ & Hdis & Hnd)%NoDup_app.
  apply NoDup_cons in Hnd as [Hd Hnd].
  apply NoDup_cons. split; [|by apply IH].
  intros Hin. apply Hd. clear -Hin.
  induction ds as [|d' ds IH]; simpl in *; [done|].
  apply elem_of_cons in Hin as [->|Hin].
  - apply elem_of_app. left. apply elem_of_app. right. by left.
  - apply elem_of_app. right. by apply IH.
Qed.

Lemma generateDummyData_reads (count : Z) (st : Entropy) :
  exists k,
    allIds (fst (generateDummyData count st))
    = map (uuids st) (seq (uuidsRead st) k).
Proof.
  unfold generateDummyData.
  destruct (generateDummyData_loop_ids (Z.to_nat count) [] st) as [k Hk].
  by exists k.
Qed.

Lemma generateDummyData_allIds_NoDup (count : Z) (st : Entropy) :
  (forall i j, uuids st i = uuids st j -> i = j) ->
  NoDup (allIds (fst (generateDummyData count st))).
Proof.
  intros Hinj. destruct (generateDummyData_reads count st) as [k ->].
  apply NoDup_fmap_2; [|apply NoDup_seq]. intros i j. apply Hinj.
Qed.

(** X22.  The ids [generateDummyData] hands out, to entries and to
    rectangles alike, are successive reads of the UUID source; if the
    source never repeats, no two of them are equal. *)
Theorem generateDummyData_ids (count : Z) (st : Entropy) :
  (forall i j, uuids st i = uuids st j -> i = j) ->
  (exists k,
     allIds (fst (generateDummyData count st))
     = map (uuids st) (seq (uuidsRead st) k))
  /\ NoDup (allIds (fst (generateDummyData count st)))
  /\ NoDup (map d_id (fst (generateDummyData count st))).
Proof.
  intros Hinj. split; [apply generateDummyData_reads|].
  split; [by apply generateDummyData_allIds_NoDup|].
  by apply NoDup_allIds_ids, generateDummyData_allIds_NoDup.
Qed.

Lemma tally_length n : String.length (tally n) = S n.
Proof.
  induction n as [|n IH]; [done|].
  change (S (String.length (tally n)) = S (S n)). by rewrite IH.
Qed.

Lemma generateDummyData_ids_witness :
  NoDup (map d_id (fst (generateDummyData 5 sampleEntropy))).
Proof.
  apply (generateDummyData_ids 5 sampleEntropy).
  intros i j H. apply (f_equal String.length) in H.
  change (uuids sampleEntropy) with tally in H.
  rewrite !tally_length in H. lia.
Defined.

(** ** The demo chart of [main] *)

Lemma lookup_addRectangle_ne u v data c k :
  wf_chart c -> k <> d_id data ->
  lookupRectangle (snd (addRectangle u v data c)) k = lookupRectangle c k.
Proof.
  intros Hwf Hk. unfold lookupRectangle, addRectangle, Rectangle.id. simpl.
  rewrite JsMap_get_set_ne by done.
  destruct (JsMap.get (rectangles c) k) as [a|] eqn:Hget; [|done]. simpl.
  apply lookup_app_l. by apply (Hwf k).
Qed.

Lemma addRectangles_spec data : forall c st,
  wf_chart c ->
  NoDup (map d_id data) ->
  (forall d, d ∈ data -> JsMap.has (rectangles c) (d_id d) = false) ->
  wf_chart (fst (addRectangles data c st))
  /\ JsMap.size (rectangles (fst (addRectangles data c st)))
     = (JsMap.size (rectangles c) + length data)%nat
  /\ connections (fst (addRectangles data c st)) = connections c
  /\ (forall k, k ∉ map d_id data ->
        lookupRectangle (fst (addRectangles data c st)) k
        = lookupRectangle c k)
  /\ (forall d, d ∈ data ->
        exists r, lookupRectangle (fst (addRectangles data c st)) (d_id d)
                  = Some r /\ r_data r = d)
  /\ uuids (snd (addRectangles data c st)) = uuids st
  /\ uuidsRead (snd (addRectangles data c st)) = uuidsRead st.
Proof.
  induction data as [|d rest IH]; intros c st Hwf Hnd Hnew.
  - simpl. repeat split; try done; try lia.
    all: by intros d ?%elem_of_nil.
  - cbn [addRectangles random]. cbv zeta.
    set (u := numbers st (numbersRead st)).
    set (v := numbers _ _).
    set (st' := mkEntropy _ _ _ _).
    set (c1 := snd (addRectangle u v d c)).
    apply NoDup_cons in Hnd as [Hd Hnd].
    assert (wf_chart c1) as Hwf1 by by apply wf_addRectangle.
    assert (forall d', d' ∈ rest -> JsMap.has (rectangles c1) (d_id d') = false)
      as Hnew1.
    { intros d' Hd'. subst c1. unfold addRectangle, Rectangle.id. simpl.
      rewrite JsMap_has_set, (Hnew d') by by right.
      rewrite bool_decide_eq_false_2; [done|].
      intros Heq. apply Hd. rewrite Heq. by apply list_elem_of_fmap_2. }
    destruct (IH c1 st' Hwf1 Hnd Hnew1) as (I1 & I2 & I3 & I4 & I5 & I6 & I7).
    split; [exact I1|]. split.
    { rewrite I2. subst c1. unfold addRectangle, Rectangle.id. simpl.
      rewrite JsMap_size_set_absent by (apply Hnew; by left). lia. }
    split; [by rewrite I3|]. split.
    { intros k [Hk Hk']%not_elem_of_cons. rewrite I4 by done.
      by apply lookup_addRectangle_ne. }
    split; [|by split].
    intros d' [->|Hd']%elem_of_cons; [|by apply I5].
    rewrite I4 by done. subst c1. rewrite lookup_addRectangle. by eexists.
Qed.

Lemma allIds_entry ds d e :
  d ∈ ds -> e ∈ d_entries d -> e_id e ∈ allIds ds.
Proof.
  intros Hd He. unfold allIds. apply list_elem_of_join.
  exists (map e_id (d_entries d) ++ [d_id d]). split.
  - apply elem_of_app. left. by apply list_elem_of_fmap_2.
  - by apply (list_elem_of_fmap_2 (fun d => map e_id (d_entries d) ++ [d_id d])).
Qed.

Lemma allIds_entries_NoDup ds d :
  NoDup (allIds ds) -> d ∈ ds -> NoDup (map e_id (d_entries d)).
Proof.
  unfold allIds. induction ds as [|d' ds IH]; simpl.
  - by intros _ ?%elem_of_nil.
  - intros (H1 & _ & H2)%NoDup_app [->|Hin]%elem_of_cons; [|by apply IH].
    by apply NoDup_app in H1 as (H1 & _).
Qed.

Lemma findIndex_head e rest : findIndex (e :: rest) (e_id e) = Some 0%nat.
Proof. simpl. by rewrite decide_True. Qed.

Lemma findIndex_last entries e :
  NoDup (map e_id entries) ->
  last entries = Some e ->
  findIndex entries (e_id e) = Some (length entries - 1)%nat.
Proof.
  induction entries as [|e' rest IH]; [done|].
  intros [Hnotin Hnd]%NoDup_cons. destruct rest as [|e'' rest].
  - intros [= ->]. apply findIndex_head.
  - intros Hlast. change (last (e'' :: rest) = Some e) in Hlast.
    change (findIndex (e' :: e'' :: rest) (e_id e))
      with (if decide (e_id e' = e_id e) then Some 0%nat
            else S <$> findIndex (e'' :: rest) (e_id e)).
    rewrite decide_False.
    + rewrite (IH Hnd Hlast). simpl. f_equal. lia.
    + intros Heq. apply Hnotin. rewrite Heq.
      change (e_id e ∈ map e_id (e'' :: rest)).
      apply list_elem_of_fmap_2. rewrite last_lookup in Hlast.
      by eapply list_elem_of_lookup_2.
Qed.

Lemma truthy_nonempty (s : string) :
  s <> EmptyString -> truthy (Some s) = Some s.
Proof. by destruct s. Qed.

(** X23.  Fed numbers in [[0, 1)] and UUIDs that are non-empty and never
    repeat, [main] leaves a chart of five rectangles and exactly one
    connection, from the first entry of the first rectangle to the last
    entry of the second: both of its endpoints resolve to an existing
    rectangle and to an entry row of it. *)
Theorem main_chart (w h : Q) (st : Entropy) :
  fair st ->
  (forall i j, uuids st i = uuids st j -> i = j) ->
  (forall i, uuids st i <> EmptyString) ->
  JsMap.size (rectangles (fst (main w h st))) = 5%nat
  /\ snd (main w h st) = draw (fst (main w h st))
  /\ exists conn rA rB eA eB,
       getConnections (fst (main w h st)) = [conn]
       /\ rectId (sideA conn) <> rectId (sideB conn)
       /\ lookupRectangle (fst (main w h st)) (rectId (sideA conn)) = Some rA
       /\ lookupRectangle (fst (main w h st)) (rectId (sideB conn)) = Some rB
       /\ entryId (sideA conn) = Some (e_id eA)
       /\ entryId (sideB conn) = Some (e_id eB)
       /\ truthy (entryId (sideA conn)) = Some (e_id eA)
       /\ truthy (entryId (sideB conn)) = Some (e_id eB)
       /\ findIndex (d_entries (r_data rA)) (e_id eA) = Some 0%nat
       /\ findIndex (d_entries (r_data rB)) (e_id eB)
          = Some (length (d_entries (r_data rB)) - 1)%nat.
Proof.
  intros Hfair Hinj Hne.
  destruct (generateDummyData_loop_spec (Z.to_nat 5) [] st Hfair)
    as [Hlen Hshape].
  specialize (Hshape ltac:(constructor)).
  pose proof (generateDummyData_allIds_NoDup 5 st Hinj) as Hall.
  destruct (generateDummyData_reads 5 st) as [k Hreads].
  fold (generateDummyData 5 st) in Hlen, Hshape.
  unfold main.
  destruct (generateDummyData 5 st) as [data st1] eqn:Eg.
  cbn [fst] in Hlen, Hshape, Hall, Hreads.
  change (length (@nil RectData) + Z.to_nat 5)%nat with 5%nat in Hlen.
  destruct data as [|d0 [|d1 [|d2 [|d3 [|d4 [|d5 data]]]]]];
    try discriminate Hlen.
  clear Hlen.
  pose proof (NoDup_allIds_ids _ Hall) as Hids.
  destruct (addRectangles_spec [d0; d1; d2; d3; d4] (newChart w h) st1
              (wf_newChart w h) Hids (fun _ _ => eq_refl))
    as (Hwf & Hsize & Hconn & _ & Hlook & _).
  destruct (addRectangles [d0; d1; d2; d3; d4] (newChart w h) st1)
    as [c st2] eqn:Ea.
  cbn [fst] in Hwf, Hsize, Hconn, Hlook.
  destruct (Hlook d0) as (r0 & Hr0 & Hd0); [by left|].
  destruct (Hlook d1) as (r1 & Hr1 & Hd1); [right; by left|].
  cbn [map]. rewrite Hr0, Hr1, Hd0, Hd1.
  (* the two entries *)
  apply Forall_cons in Hshape as [(_ & Hn0 & _) Hshape].
  apply Forall_cons in Hshape as [(_ & Hn1 & _) _].
  destruct (d_entries d0) as [|eA rest0] eqn:E0; [simpl in Hn0; lia|].
  destruct (last (d_entries d1)) as [eB|] eqn:E1.
  2:{ rewrite last_lookup in E1. apply lookup_ge_None in E1. lia. }
  assert (forall d e, d ∈ [d0; d1; d2; d3; d4] -> e ∈ d_entries d ->
                      e_id e <> EmptyString) as Hnonempty.
  { intros d e Hd He.
    pose proof (allIds_entry _ d e Hd He) as Hin.
    rewrite Hreads in Hin.
    apply list_elem_of_fmap_1 in Hin as (i & -> & _). apply Hne. }
  assert (e_id eA <> EmptyString) as HA.
  { apply (Hnonempty d0); [by left|]. rewrite E0. by left. }
  assert (e_id eB <> EmptyString) as HB.
  { apply (Hnonempty d1); [right; by left|].
    rewrite last_lookup in E1. by eapply list_elem_of_lookup_2. }
  cbn [lookup list_lookup fmap option_fmap option_map].
  rewrite (truthy_nonempty _ HA), (truthy_nonempty _ HB).
  cbn [randomUUID fst snd].
  split.
  { simpl. rewrite Hsize. simpl. lia. }
  split; [done|].
  exists (mkConnection (uuids st2 (uuidsRead st2))
            (mkEndpoint (d_id d0) (Some (e_id eA)))
            (mkEndpoint (d_id d1) (Some (e_id eB)))), r0, r1, eA, eB.
  split.
  { unfold getConnections, addConnection. simpl. by rewrite Hconn. }
  cbn [sideA sideB rectId entryId].
  split.
  { apply NoDup_cons in Hids as [Hd _]. intros Heq. apply Hd.
    rewrite Heq. by left. }
  split; [exact Hr0|]. split; [exact Hr1|].
  split; [done|]. split; [done|].
  split; [by apply truthy_nonempty|]. split; [by apply truthy_nonempty|].
  rewrite Hd0, Hd1, E0. split; [apply findIndex_head|].
  apply findIndex_last; [|done].
  apply (allIds_entries_NoDup [d0; d1; d2; d3; d4]); [done|]. right. by left.
Qed.

Lemma main_chart_witness :
  JsMap.size (rectangles (fst (main 800 600 sampleEntropy))) = 5%nat.
Proof.
  apply (main_chart 800 600 sampleEntropy).
  - apply fair_sampleEntropy.
  - intros i j H. apply (f_equal String.length) in H.
    change (uuids sampleEntropy) with tally in H.
    rewrite !tally_length in H. lia.
  - intros i H. apply (f_equal String.length) in H.
    change (uuids sampleEntropy) with tally in H.
    rewrite tally_length in H. discriminate H.
Defined.

(** ** Pointer-down *)

(** X24.  Pointer-down tracks the pointer at the event's position and
    always leaves some gesture set, but never clears one: every gesture
    field that was set before is still set afterwards, and the transform
    and the store are untouched. *)
Theorem handlePointerDown_never_clears (hypot : Q -> Q -> Q) (c : Chart)
  (e : PointerEvent) :
  JsMap.get (pointers (handlePointerDown hypot c e)) (pointerId e)
  = Some (mkPoint (clientX e) (clientY e))
  /\ (1 <= activeGestures (handlePointerDown hypot c e))%nat
  /\ (flag (draggingRect c)
      <= flag (draggingRect (handlePointerDown hypot c e)))%nat
  /\ (flag (resizingRect c)
      <= flag (resizingRect (handlePointerDown hypot c e)))%nat
  /\ (flag (panning c) <= flag (panning (handlePointerDown hypot c e)))%nat
  /\ (flag (pinch c) <= flag (pinch (handlePointerDown hypot c e)))%nat
  /\ transform (handlePointerDown hypot c e) = transform c
  /\ heap (handlePointerDown hypot c e) = heap c.
Proof.
  destruct c as [cw ch cur hp rs tr ps cs dg rz pn pc].
  unfold handlePointerDown, activeGestures. simpl.
  pose proof (JsMap_get_set_eq ps (pointerId e)
                (mkPoint (clientX e) (clientY e))) as Hget.
  destruct (JsMap.values _) as [|p0 [|p1 [|p2 rest]]]; simpl;
    try (destruct dg, rz, pn, pc; simpl; repeat split; done || lia);
    match goal with |- context [hitTest ?a ?x ?y] =>
      destruct (hitTest a x y) as [[a' rect part]|] end;
    [destruct part| | destruct part| | destruct part|];
    destruct dg, rz, pn, pc; simpl; repeat split; done || lia.
Qed.

(** * The arithmetic in binary64

    What the source's double-precision arithmetic does to the identities
    that hold in exact arithmetic, evaluated on concrete inputs. *)

Section Binary64.
Import PrimFloat.
#[local] Set Warnings "-inexact-float".
Local Open Scope float_scope.

(** Zooming out with the wheel: every step multiplies the scale by the
    positive factor [1 + -999 * 0.001], the scale is still positive after
    107 steps from scale 1, and the 108th product underflows to zero. *)
Lemma wheel_zoom_out_underflows :
  (0 <? 1 + - 999 * 0.001) = true
  /\ (0 <? Double.scale
             (Nat.iter 107 (fun t => Double.handleWheel t 999 400 300)
                (Double.mkTransform 1 0 0))) = true
  /\ Double.scale
       (Nat.iter 108 (fun t => Double.handleWheel t 999 400 300)
          (Double.mkTransform 1 0 0)) = 0.
Proof. repeat split; vm_compute; reflexivity. Qed.

(** A pinch recorded with the pointers at (0, 0) and (3, 4) on the
    identity transform: start distance 5, start scale 1, midpoint
    (1.5, 2), which is over the world point (1.5, 2).  The second pointer
    moves to (0, 1): the scale becomes 0.2, and the midpoint is then over
    (1.5000000000000002, 1.9999999999999996).  [Math.hypot] enters as any
    function that returns 1 at (0, 1). *)
Lemma pinch_pivot_drifts (hypot : float -> float -> float) :
  hypot 0 1 = 1 ->
  Double.screenToWorld (Double.mkTransform 1 0 0) 1.5 2
  = Double.mkPoint 1.5 2
  /\ Double.pinchMove hypot (Double.mkTransform 1 0 0)
       (Double.mkPinch 5 1 (Double.mkPoint 1.5 2))
       (Double.mkPoint 0 0) (Double.mkPoint 0 1)
     = Double.mkTransform 0.2 1.2 1.6
  /\ Double.screenToWorld (Double.mkTransform 0.2 1.2 1.6) 1.5 2
     = Double.mkPoint 0x1.8000000000001p+0 0x1.ffffffffffffep+0.
Proof.
  intros H. split; [vm_compute; reflexivity|]. split.
  - unfold Double.pinchMove. cbn.
    replace (0 - 0) with 0 by (vm_compute; reflexivity).
    replace (1 - 0) with 1 by (vm_compute; reflexivity).
    rewrite H. vm_compute. reflexivity.
  - vm_compute. reflexivity.
Qed.

(** A rectangle at x = 0.1 of width 200 with two entries, at scale 1.1:
    the left edge dragged 5 pixels to the right.  Neither floor applies;
    the position and the width are rounded separately and their sum, the
    right edge, is 200.10000000000002 where it was 200.1. *)
Lemma resize_far_edge_drifts :
  Double.resizeRectangle (Double.mkGeometry 0.1 0 200 120) 2 Left
    (Double.mkPoint 0 60) (Double.mkGeometry 0.1 0 200 120) 1.1
    (Double.mkPoint 5 60)
  = Double.mkGeometry (0.1 + 5 / 1.1) 0 (200 - 5 / 1.1) 120
  /\ 0.1 + 200 = 0x1.9033333333333p+7
  /\ (0.1 + 5 / 1.1) + (200 - 5 / 1.1) = 0x1.9033333333334p+7.
Proof. repeat split; vm_compute; reflexivity. Qed.

End Binary64.
